(** * argcomb: the expression evaluator and the argument resolver

    A shallow embedding of [argcomb/argcomb.py]: the expression domain,
    [ArgCombiner.execute_list] / [ArgCombiner.internal_execute] (the
    cross-product evaluator), [ArgCombiner.flatten] and
    [ArgCombiner.interpret_args], with the properties the specification
    states about them. *)

From Stdlib Require Import ZArith String List SpecFloat Ascii.
From stdpp Require Import base option list gmap strings fin_maps pretty.

(** ** Expression domain

    [Expr = Optional[Union[bool, int, float, str, List, Arg, Selector, Let,
    Callable]]].  A Python value is one of the variants below; [PyDict] is
    the dictionary form of a selector's choices ([Dict[str, Expr]]), its
    items in insertion order, each key once.
    Python callables are code: they are represented by a name of type [Fn]
    that the evaluator interprets through a function [call], which is a
    parameter of the development. *)

Section Model.

Context {Fn : Type}.

#[local] Unset Elimination Schemes.

Inductive Expr : Type :=
| PyNone
| PyBool (b : bool)
| PyInt (z : Z)
| PyFloat (f : spec_float)
| PyStr (s : string)
| PyList (items : list Expr)
| PyDict (items : list (string * Expr))
| Arg (name : string) (values : list Expr) (append delete : bool)
| Selector (which : Expr) (choices : Expr)
| Let (var : string) (value : Expr) (if_undefined : bool)
| Callable (f : Fn).

#[local] Set Elimination Schemes.

(** [Env = Dict[str, Any]]. *)
Abbreviation Env := (gmap string Expr).

(** Exceptions.  [ArgcombException] carries a message; the four messages
    the module formats are kept apart by their shape.  [ValueError] is the
    internal error of [execute_list]; [TypeError] is what Python raises
    when an unhashable value is looked up in a dict; [Uncaught] is an
    exception that escapes a callable. *)

Context {FnExn : Type}.

Inductive Message : Type :=
| NotInEnv (key : string) (env : Env)
| NotInChoices (key : Expr) (keys : list Expr)
| ExpectedListOrDict (choices : Expr)
| ExpectAList (expr : Expr).

Inductive Exn : Type :=
| ArgcombException (message : Message)
| ValueError (rest : list Expr) (new_rest : Expr)
| TypeError (unhashable : Expr)
| Uncaught (x : FnExn).

(** The names the specification gives to the error kinds. *)
Definition UndefinedVariable (key : string) (env : Env) : Exn :=
  ArgcombException (NotInEnv key env).
Definition UnknownChoice (key : Expr) (keys : list Expr) : Exn :=
  ArgcombException (NotInChoices key keys).
Definition MalformedChoices (choices : Expr) : Exn :=
  ArgcombException (ExpectedListOrDict choices).
Definition NotAList (expr : Expr) : Exn :=
  ArgcombException (ExpectAList expr).
Definition InternalShapeError (rest : list Expr) (new_rest : Expr) : Exn :=
  ValueError rest new_rest.

Variable call : Fn → Env → FnExn + Expr.

(** ** Generators

    A generator is observed through the values it yields and the way it
    stops: it returns ([Done]), an exception leaves it ([Raised]), or it
    never stops ([Diverged], the recursion did not end within the fuel). *)

Inductive Outcome : Type :=
| Done
| Raised (x : Exn)
| Diverged.

Definition Iterator (A : Type) : Type := (list A * Outcome)%type.

Definition yield {A} (x : A) : Iterator A := ([x], Done).
Definition raise {A} (x : Exn) : Iterator A := ([], Raised x).
Definition diverge {A} : Iterator A := ([], Diverged).

(** [for x in xs: body(x)] inside a generator, where the loop is left by
    [o] once [xs] is used up.  A body that does not return stops the
    loop with what it yielded so far. *)
Fixpoint for_items {A B} (xs : list A) (o : Outcome) (body : A → Iterator B)
  : Iterator B :=
  match xs with
  | [] => ([], o)
  | x :: xs' =>
      match body x with
      | (ys, Done) => let '(zs, o') := for_items xs' o body in (ys ++ zs, o')
      | (ys, stop) => (ys, stop)
      end
  end.

(** [for x in g: body(x)] over another generator [g]. *)
Definition for_each {A B} (g : Iterator A) (body : A → Iterator B)
  : Iterator B :=
  for_items g.1 g.2 body.

(** ** Helper functions *)

(** [lookup_env]. *)
Definition lookup_env (env : Env) (key : string) : Exn + Expr :=
  match env !! key with
  | None => inl (ArgcombException (NotInEnv key env))
  | Some v => inr v
  end.

(** [dict(list(new_env.items()) + [(var, new_value)])]: [dict] inserts the
    pairs from left to right, a later pair replacing an earlier one with
    the same key. *)
Definition dict (items : list (string * Expr)) : Env :=
  fold_left (fun d kv => <[kv.1 := kv.2]> d) items ∅.

Definition items (env : Env) : list (string * Expr) := map_to_list env.

(** Keys of the canonical [choices] dict: the indices of the list form or
    the strings of the dict form. *)
Inductive Key : Type :=
| KInt (i : Z)
| KStr (s : string).

Definition key_expr (k : Key) : Expr :=
  match k with
  | KInt i => PyInt i
  | KStr s => PyStr s
  end.

(** [hash(x)] is defined, that is [x] can be looked up in a dict.  Lists
    and dicts are not hashable; a named tuple is hashable when all its
    fields are ([Arg.values] is a list). *)
Fixpoint hashable (e : Expr) : bool :=
  match e with
  | PyList _ | PyDict _ | Arg _ _ _ _ => false
  | Selector which choices => hashable which && hashable choices
  | Let _ value _ => hashable value
  | _ => true
  end.

(** The integer a float is equal to, if any ([1.0 == 1]). *)
Definition float_integer (f : spec_float) : option Z :=
  match f with
  | S754_zero _ => Some 0
  | S754_finite s m e =>
      let sign := if s then -1 else 1 in
      if 0 <=? e then Some (sign * (Z.pos m * 2 ^ e))
      else if Z.pos m mod 2 ^ (- e) =? 0
           then Some (sign * (Z.pos m / 2 ^ (- e)))
           else None
  | _ => None
  end%Z.

(** Python's [==] between a hashable value and a key of [choices]:
    [True == 1], [1.0 == 1], strings by content, anything else differs
    from an [int] and from a [str]. *)
Definition key_eqb (e : Expr) (k : Key) : bool :=
  match k, e with
  | KInt i, PyInt z => bool_decide (z = i)
  | KInt i, PyBool b => bool_decide ((if b then 1 else 0)%Z = i)
  | KInt i, PyFloat f => bool_decide (float_integer f = Some i)
  | KStr s, PyStr t => bool_decide (t = s)
  | _, _ => false
  end.

(** [choices[key]] when [key in choices]. *)
Fixpoint getitem (choices : list (Key * Expr)) (key : Expr) : option Expr :=
  match choices with
  | [] => None
  | (k, v) :: choices' => if key_eqb key k then Some v else getitem choices' key
  end.

(** [list(choices.keys())]. *)
Definition keys (choices : list (Key * Expr)) : list Expr :=
  map (fun kv => key_expr kv.1) choices.

(** [dict(zip(range(len(l)), l))]. *)
Definition range (n : nat) : list Z := map Z.of_nat (seq 0 n).

Definition zip_range (l : list Expr) : list (Key * Expr) :=
  zip (map KInt (range (length l))) l.

(** "Canonicalize to dict representation for `choices`". *)
Definition canonical_choices (choices : Expr) : option (list (Key * Expr)) :=
  match choices with
  | PyList l => Some (zip_range l)
  | PyDict d => Some (map (fun kv => (KStr kv.1, kv.2)) d)
  | _ => None
  end.

(** "Lookup variable in environment". *)
Definition resolve_which (env : Env) (which : Expr) : Exn + Expr :=
  match which with
  | PyStr s => if String.prefix "@"%string s then lookup_env env s else inr which
  | _ => inr which
  end.

(** "Canonicalize to list for `which`". *)
Definition canonical_which (choices : list (Key * Expr)) (which : Expr)
  : list Expr :=
  match which with
  | PyNone => keys choices
  | PyList l => l
  | _ => [which]
  end.

(** ** The evaluator

    [execute_list] and [internal_execute] call each other; a callable may
    return any expression, itself included, so the recursion is bounded by
    [fuel], the depth of the call stack. *)

Fixpoint execute_list (fuel : nat) (expr : list Expr) (env : Env)
  {struct fuel} : Iterator (list Expr * Env) :=
  match fuel with
  | O => diverge
  | S fuel =>
      match expr with
      | [] => yield (expr, env)
      | first :: rest =>
          for_each (internal_execute fuel first env)
            (fun '(new_first, new_first_env) =>
               for_each (internal_execute fuel (PyList rest) new_first_env)
                 (fun '(new_rest, new_rest_env) =>
                    match new_rest with
                    | PyList new_rest =>
                        yield (new_first :: new_rest, new_rest_env)
                    | _ => raise (ValueError rest new_rest)
                    end))
      end
  end
with internal_execute (fuel : nat) (expr : Expr) (env : Env)
  {struct fuel} : Iterator (Expr * Env) :=
  match fuel with
  | O => diverge
  | S fuel =>
      match expr with
      | PyList l =>
          for_each (execute_list fuel l env)
            (fun '(new_expr, new_env) => yield (PyList new_expr, new_env))
      | Arg name values append delete =>
          for_each (execute_list fuel values env)
            (fun '(new_values, new_env) =>
               yield (Arg name new_values append delete, new_env))
      | Selector which choices =>
          match canonical_choices choices with
          | None => raise (ArgcombException (ExpectedListOrDict choices))
          | Some choices =>
              match resolve_which env which with
              | inl x => raise x
              | inr which =>
                  for_items (canonical_which choices which) Done
                    (fun key =>
                       if negb (hashable key) then raise (TypeError key)
                       else
                         match getitem choices key with
                         | None =>
                             raise (ArgcombException
                                      (NotInChoices key (keys choices)))
                         | Some choice =>
                             for_each (internal_execute fuel choice env)
                               (fun '(new_expr, new_env) =>
                                  yield (new_expr, new_env))
                         end)
              end
          end
      | Let var value if_undefined =>
          if negb if_undefined || negb (bool_decide (is_Some (env !! var)))
          then
            for_each (internal_execute fuel value env)
              (fun '(new_value, new_env) =>
                 yield (expr, dict (items new_env ++ [(var, new_value)])))
          else yield (expr, env)
      | Callable f =>
          match call f env with
          | inl x => raise (Uncaught x)
          | inr body =>
              for_each (internal_execute fuel body env)
                (fun '(new_expr, new_env) => yield (new_expr, new_env))
          end
      | _ => yield (expr, env)
      end
  end.

(** [ArgCombiner.execute]: the entry point, with the extra command-line
    arguments appended to the root list. *)
Definition execute (extra_args : list Expr) (fuel : nat) (expr : Expr)
  (env : Env) : Iterator (Expr * Env) :=
  match expr with
  | PyList l => internal_execute fuel (PyList (l ++ extra_args)) env
  | _ => raise (ArgcombException (ExpectAList expr))
  end.

(** ** Flatten *)

Fixpoint flatten (expr : Expr) : list Expr :=
  match expr with
  | PyList l => flat_map flatten l
  | _ => [expr]
  end.

(** ** Argument resolver

    [arg_values] is an [OrderedDict] from names to value lists; its order
    is never read ([in], item access, assignment and [del] only), so it is
    a finite map. *)

Abbreviation ArgValues := (gmap string (list Expr)).

(** One iteration of the first loop of [interpret_args]. *)
Definition accumulate_step (arg_values : ArgValues) (expr : Expr)
  : ArgValues :=
  match expr with
  | Arg name values append delete =>
      let arg_values :=
        if bool_decide (is_Some (arg_values !! name)) then arg_values
        else <[name := []]> arg_values in
      if append then alter (fun l => l ++ values) name arg_values
      else if delete then base.delete name arg_values
      else <[name := values]> arg_values
  | _ => arg_values
  end.

Definition accumulate (exprs : list Expr) : ArgValues :=
  fold_left accumulate_step exprs ∅.

(** One iteration of the second loop, on the pair
    [(new_exprs, arg_values)]. *)
Definition emit_step (state : list Expr * ArgValues) (expr : Expr)
  : list Expr * ArgValues :=
  let '(new_exprs, arg_values) := state in
  match expr with
  | Arg name _ _ _ =>
      match arg_values !! name with
      | Some values =>
          (new_exprs ++ PyStr ("--" +:+ name) :: values,
           base.delete name arg_values)
      | None => state
      end
  | Let _ _ _ => state
  | _ => (new_exprs ++ [expr], arg_values)
  end.

Definition interpret_args (exprs : list Expr) : list Expr :=
  (fold_left emit_step exprs ([], accumulate exprs)).1.

(** ** Termination

    More fuel can only extend what a computation that ran out of fuel
    yielded, and leaves a computation that stopped by itself as it is:
    [approx g g'].  An expression evaluates to [g] when some fuel gives [g]
    and [g] did not stop for lack of fuel. *)

Definition approx {A} (g g' : Iterator A) : Prop :=
  match g.2 with
  | Diverged => g.1 `prefix_of` g'.1
  | _ => g = g'
  end.

Definition stopped {A} (g : Iterator A) : Prop := g.2 ≠ Diverged.

Definition evaluates (expr : Expr) (env : Env) (g : Iterator (Expr * Env))
  : Prop :=
  ∃ fuel, internal_execute fuel expr env = g ∧ stopped g.

Definition list_evaluates (expr : list Expr) (env : Env)
  (g : Iterator (list Expr * Env)) : Prop :=
  ∃ fuel, execute_list fuel expr env = g ∧ stopped g.

(** [isinstance(expr, list)]. *)
Definition is_list (expr : Expr) : bool :=
  match expr with
  | PyList _ => true
  | _ => false
  end.

(** The generator does not end in the internal error of [execute_list]. *)
Definition no_shape_error {A} (g : Iterator A) : Prop :=
  ∀ rest new_rest, g.2 ≠ Raised (InternalShapeError rest new_rest).

(** The pairs the specification lists for a non-empty list
    [[e0, e1, ..., en]]: for each candidate [(v0, env0)] of [e0] (outer
    loop) and each candidate [(restList, env1)] of the rest under [env0]
    (inner loop), the pair [([v0] ++ restList, env1)]. *)
Definition cross_product (first : list (Expr * Env))
  (rest : Env → list (list Expr * Env)) : list (list Expr * Env) :=
  flat_map
    (fun c0 => map (fun c1 => ([c0.1] ++ c1.1, c1.2)) (rest c0.2))
    first.

(** The branch a selector takes for a key that is in [choices]:
    [choices[key]] returns the candidates [c] under [env]. *)
Definition selects (choices : list (Key * Expr)) (env : Env) (key : Expr)
  (c : list (Expr * Env)) : Prop :=
  ∃ choice, hashable key = true ∧ getitem choices key = Some choice ∧
            evaluates choice env (c, Done).

(** [isinstance(expr, Arg)], and an [Arg] with a given name. *)
Definition is_arg (expr : Expr) : bool :=
  match expr with
  | Arg _ _ _ _ => true
  | _ => false
  end.

Definition arg_named (name : string) (expr : Expr) : bool :=
  match expr with
  | Arg name' _ _ _ => bool_decide (name' = name)
  | _ => false
  end.

(** [isinstance(expr, Arg) or isinstance(expr, Let)]: the markers the
    resolver interprets. *)
Definition is_marker (expr : Expr) : bool :=
  match expr with
  | Arg _ _ _ _ | Let _ _ _ => true
  | _ => false
  end.

(** The second loop of [interpret_args] run on a part of the tokens. *)
Definition emit (exprs : list Expr) (arg_values : ArgValues)
  : list Expr * ArgValues :=
  fold_left emit_step exprs ([], arg_values).

(** The output of the resolver has the flag of [name] and [values] at the
    position of token number [k]: it is what the second loop emitted for
    the tokens before [k], then the flag and the values, then what the
    loop emits for the tokens after [k]. *)
Definition emitted_at (exprs : list Expr) (k : nat) (name : string)
  (values : list Expr) : Prop :=
  let before := emit (take k exprs) (accumulate exprs) in
  let after := emit (drop (S k) exprs) (base.delete name before.2) in
  interpret_args exprs
  = before.1 ++ [PyStr ("--" +:+ name)] ++ values ++ after.1.

(** ** Environments as objects

    A Python dict is an object: two names may refer to the same dict, and
    an update through one is seen through the other.  To follow what the
    evaluator does to the dicts it is handed, the evaluator is written a
    second time over a store of dict objects, an environment being a
    reference into the store.  A generator is suspended at each [yield]:
    its consumer runs on the store as it is then and resumes the
    generator on the store the consumer leaves.  A callable is handed
    the dict and is taken to read it only, as [fmt] and the lambdas of
    the tests do. *)

Abbreviation Store := (list Env).
Abbreviation Ref := nat.

(** The dict a reference points to. *)
Definition deref (st : Store) (r : Ref) : Env := default ∅ (st !! r).

Inductive Resumption (A : Type) : Type :=
| Stop (o : Outcome) (st : Store)
| Yielded (x : A) (st : Store) (resume : Store → Resumption A).

Arguments Stop {A} o st.
Arguments Yielded {A} x st resume.

(** [yield x] as the last statement of a generator. *)
Definition yield_st {A} (x : A) (st : Store) : Resumption A :=
  Yielded x st (Stop Done).

(** Run [r]; when it returns, go on with [next]. *)
Fixpoint and_then {A} (r : Resumption A) (next : Store → Resumption A)
  : Resumption A :=
  match r with
  | Stop Done st => next st
  | Stop o st => Stop o st
  | Yielded x st resume =>
      Yielded x st (fun st' => and_then (resume st') next)
  end.

(** [for x in g: body(x)]: the body runs each time [g] yields, before [g]
    is resumed. *)
Fixpoint for_each_st {A B} (g : Resumption A)
  (body : A → Store → Resumption B) : Resumption B :=
  match g with
  | Stop o st => Stop o st
  | Yielded x st resume =>
      and_then (body x st) (fun st' => for_each_st (resume st') body)
  end.

(** [for x in xs: body(x)] over a list. *)
Fixpoint for_items_st {A B} (xs : list A) (body : A → Store → Resumption B)
  (st : Store) : Resumption B :=
  match xs with
  | [] => Stop Done st
  | x :: xs' => and_then (body x st) (for_items_st xs' body)
  end.

Fixpoint execute_list_st (fuel : nat) (expr : list Expr) (env : Ref)
  (st : Store) {struct fuel} : Resumption (list Expr * Ref) :=
  match fuel with
  | O => Stop Diverged st
  | S fuel =>
      match expr with
      | [] => yield_st (expr, env) st
      | first :: rest =>
          for_each_st (internal_execute_st fuel first env st)
            (fun '(new_first, new_first_env) =>
               fun st =>
                 for_each_st
                   (internal_execute_st fuel (PyList rest) new_first_env st)
                   (fun '(new_rest, new_rest_env) =>
                      match new_rest with
                      | PyList new_rest =>
                          yield_st (new_first :: new_rest, new_rest_env)
                      | _ => Stop (Raised (ValueError rest new_rest))
                      end))
      end
  end
with internal_execute_st (fuel : nat) (expr : Expr) (env : Ref)
  (st : Store) {struct fuel} : Resumption (Expr * Ref) :=
  match fuel with
  | O => Stop Diverged st
  | S fuel =>
      match expr with
      | PyList l =>
          for_each_st (execute_list_st fuel l env st)
            (fun '(new_expr, new_env) => yield_st (PyList new_expr, new_env))
      | Arg name values append delete =>
          for_each_st (execute_list_st fuel values env st)
            (fun '(new_values, new_env) =>
               yield_st (Arg name new_values append delete, new_env))
      | Selector which choices =>
          match canonical_choices choices with
          | None => Stop (Raised (ArgcombException (ExpectedListOrDict choices))) st
          | Some choices =>
              match resolve_which (deref st env) which with
              | inl x => Stop (Raised x) st
              | inr which =>
                  for_items_st (canonical_which choices which)
                    (fun key st =>
                       if negb (hashable key) then Stop (Raised (TypeError key)) st
                       else
                         match getitem choices key with
                         | None =>
                             Stop (Raised (ArgcombException
                                             (NotInChoices key (keys choices))))
                                  st
                         | Some choice =>
                             for_each_st (internal_execute_st fuel choice env st)
                               (fun '(new_expr, new_env) =>
                                  yield_st (new_expr, new_env))
                         end)
                    st
              end
          end
      | Let var value if_undefined =>
          if negb if_undefined
             || negb (bool_decide (is_Some (deref st env !! var)))
          then
            for_each_st (internal_execute_st fuel value env st)
              (fun '(new_value, new_env) =>
                 fun st =>
                   (* [dict(...)] builds a new object *)
                   yield_st (expr, length st)
                     (st ++ [dict (items (deref st new_env)
                                   ++ [(var, new_value)])]))
          else yield_st (expr, env) st
      | Callable f =>
          match call f (deref st env) with
          | inl x => Stop (Raised (Uncaught x)) st
          | inr body =>
              for_each_st (internal_execute_st fuel body env st)
                (fun '(new_expr, new_env) => yield_st (new_expr, new_env))
          end
      | _ => yield_st (expr, env) st
      end
  end.

(** A consumer that takes every candidate and leaves the store alone (as
    [ArgCombiner.run] does): what it is handed, each with the store at
    that time, how the generator stops, and the store at the end. *)
Fixpoint drain {A} (r : Resumption A) : list (A * Store) * Outcome * Store :=
  match r with
  | Stop o st => ([], o, st)
  | Yielded x st resume =>
      let '(ys, o, st') := drain (resume st) in ((x, st) :: ys, o, st')
  end.

(** The store-passing generator [r], started on a store that extends
    [st0], behaves as a generator on environments as values that yields
    [ys] and stops with [o]: every store it shows extends [st0], and it
    yields [ys] up to [R], which relates a candidate with references to
    a candidate with environments.  Between a [yield] and the resumption
    the consumer may add objects to the store. *)
Inductive simulates {A A'} (R : Store → A → A' → Prop) (o : Outcome)
  : Store → Resumption A → list A' → Prop :=
| simulates_stop st0 st :
    st0 `prefix_of` st → simulates R o st0 (Stop o st) []
| simulates_yield st0 x x' st resume ys :
    st0 `prefix_of` st →
    R st x x' →
    (∀ st', st `prefix_of` st' → simulates R o st' (resume st') ys) →
    simulates R o st0 (Yielded x st resume) (x' :: ys).

(** A candidate with a reference stands for the candidate with the dict
    the reference points to. *)
Definition points_to {V} (st : Store) (c : V * Ref) (c' : V * Env) : Prop :=
  c.1 = c'.1 ∧ st !! c.2 = Some c'.2.

(** [to_command] before the tokens are turned into strings and quoted. *)
Definition to_tokens (expr : Expr) : list Expr :=
  interpret_args (flatten expr).

(** An expression without a [Selector], a [Let] or a callable among the
    elements of its lists and the values of its [Arg]s, at any depth. *)
Fixpoint plain (expr : Expr) : bool :=
  match expr with
  | PyList l => forallb plain l
  | Arg _ values _ _ => forallb plain values
  | Selector _ _ | Let _ _ _ | Callable _ => false
  | _ => true
  end.

(** The candidates of [l1 + l2] from those of [l1] and, under the
    environment of each, those of [l2]. *)
Definition threaded_product (first : list (list Expr * Env))
  (second : Env → list (list Expr * Env)) : list (list Expr * Env) :=
  flat_map
    (fun c1 => map (fun c2 => (c1.1 ++ c2.1, c2.2)) (second c1.2))
    first.

(** ** Functions that will be used externally

    [arg], [sel], [selarg], [let] and [let_if_undefined] build the nodes;
    [*values] and [*choices] are the lists of the positional arguments,
    and the keyword arguments of [arg] and [let] are given in full. *)

Definition arg (name : string) (values : list Expr) (append delete : bool)
  : Expr :=
  Arg name values append delete.

(** [len(choices) == 1 and isinstance(choices[0], dict)]. *)
Definition single_dict (choices : list Expr) : bool :=
  match choices with
  | [PyDict _] => true
  | _ => false
  end.

Definition standardize_choices (choices : list Expr)
  (transform : Expr → Expr) : Expr :=
  match choices with
  | [PyDict d] => PyDict d
  | _ => PyList (map transform choices)
  end.

Definition sel (which : Expr) (choices : list Expr) : Expr :=
  Selector which (standardize_choices choices (fun choice => choice)).

Definition selarg (which : Expr) (name : string) (choices : list Expr)
  : Expr :=
  Selector which
    (standardize_choices choices (fun choice => arg name [choice] false false)).

Definition let_ (var : string) (value : Expr) (if_undefined : bool) : Expr :=
  Let var value if_undefined.

Definition let_if_undefined (var : string) (value : Expr) : Expr :=
  let_ var value true.

(** The names of the [Arg]s of a token list, in order, and what the
    resolver makes of a token whose name, if it is an [Arg], occurs
    once. *)
Definition arg_names (exprs : list Expr) : list string :=
  flat_map (fun expr => match expr with
                        | Arg name _ _ _ => [name]
                        | _ => []
                        end) exprs.

Definition render_alone (expr : Expr) : list Expr :=
  match expr with
  | Arg name values append delete =>
      if append || negb delete then PyStr ("--" +:+ name) :: values else []
  | Let _ _ _ => []
  | _ => [expr]
  end.

End Model.

Arguments Expr : clear implicits.
Arguments Message : clear implicits.
Arguments Exn : clear implicits.
Arguments Stop {Fn FnExn A} o st.
Arguments Yielded {Fn FnExn A} x st resume.

(** ** The combiner: construction, rendering, running

    [ArgCombiner.__init__], [parse_value], [ArgCombiner.to_command] and
    [ArgCombiner.run].  What the module takes from Python's library is a
    parameter: the match of [re.fullmatch] on the pattern of [__init__]
    (an [@] and word characters, an [=], the rest of the line) with its
    two groups, [json.loads], [str] on a token, [shlex.quote], and
    [os.system], which returns a status and changes the world.
    [user_error x] says that the exception [x] of a callable is an
    [ArgcombException] (the one [lookup_env] raises inside [fmt]). *)

Section Runner.

Context {Fn FnExn World : Type}.
Variable call : Fn → gmap string (Expr Fn) → FnExn + Expr Fn.
Variable fullmatch : string → option (string * string).
Variable json_loads : string → option (Expr Fn).
Variable str : Expr Fn → string.
Variable quote : string → string.
Variable system : World → string → Z * World.
Variable user_error : FnExn → bool.

(** [parse_value]: "Try to interpret the value as JSON, else fallback to
    string." *)
Definition parse_value (value : string) : Expr Fn :=
  match json_loads value with
  | Some v => v
  | None => PyStr value
  end.

Record ArgCombiner : Type := {
  extra_args : list string;
  init_env : gmap string (Expr Fn);
  pretend : bool
}.

(** One iteration of the loop of [__init__]. *)
Definition init_step (self : ArgCombiner) (arg : string) : ArgCombiner :=
  if String.eqb arg "-n" then
    {| extra_args := extra_args self; init_env := init_env self;
       pretend := true |}
  else
    match fullmatch arg with
    | Some (var, value) =>
        {| extra_args := extra_args self;
           init_env := <[var := parse_value value]> (init_env self);
           pretend := pretend self |}
    | None =>
        {| extra_args := extra_args self ++ [arg];
           init_env := init_env self;
           pretend := pretend self |}
    end.

(** [ArgCombiner(args, pretend)]. *)
Definition init (args : list string) (pretend : bool) : ArgCombiner :=
  fold_left init_step args
    {| extra_args := []; init_env := ∅; pretend := pretend |}.

(** [to_command]. *)
Definition to_command (expr : Expr Fn) : string :=
  String.concat " " (map quote (map str (to_tokens expr))).

(** What [run] does to the outside, in order, and how it ends. *)
Inductive Effect : Type :=
| Stdout (command : string)
| Stderr (e : Exn Fn FnExn)
| System (command : string).

Inductive Status : Type :=
| Returns
| Exit (code : Z)
| Propagates (e : Exn Fn FnExn)
| Hangs.

(** [except ArgcombException]. *)
Definition caught (e : Exn Fn FnExn) : bool :=
  match e with
  | ArgcombException _ => true
  | Uncaught x => user_error x
  | _ => false
  end.

(** The loop of [run] over the candidates [execute] yields, which stops
    with [o]. *)
Fixpoint run_loop (pretend : bool)
  (candidates : list (Expr Fn * gmap string (Expr Fn))) (o : Outcome)
  (w : World) : list Effect * Status * World :=
  match candidates with
  | [] =>
      match o with
      | Done => ([], Returns, w)
      | Raised e =>
          if caught e then ([Stderr e], Exit 1, w)
          else ([], Propagates e, w)
      | Diverged => ([], Hangs, w)
      end
  | (new_expr, _) :: candidates =>
      let command := to_command new_expr in
      if pretend then
        let '(effects, status, w) := run_loop pretend candidates o w in
        (Stdout command :: effects, status, w)
      else
        let '(raw_exitcode, w) := system w command in
        let exitcode := Z.shiftr raw_exitcode 8 in
        if negb (exitcode =? 0)%Z then ([System command], Exit exitcode, w)
        else
          let '(effects, status, w) := run_loop pretend candidates o w in
          (System command :: effects, status, w)
  end.

(** [ArgCombiner.run]. *)
Definition ArgCombiner_run (self : ArgCombiner) (fuel : nat) (expr : Expr Fn)
  (w : World) : list Effect * Status * World :=
  let g := execute call (map PyStr (extra_args self)) fuel expr
             (init_env self) in
  run_loop (pretend self) g.1 g.2 w.

(** The module's [run], called on the elements of [expr], [args] being
    [sys.argv[1:]]. *)
Definition run (args : list string) (fuel : nat) (expr : list (Expr Fn))
  (w : World) : list Effect * Status * World :=
  ArgCombiner_run (init args false) fuel (PyList expr) w.

(** The commands of the candidates, and [os.system] run on each command
    of a list in turn: the statuses, and the world at the end. *)
Definition commands_of (candidates : list (Expr Fn * gmap string (Expr Fn)))
  : list string :=
  map (fun c => to_command c.1) candidates.

Fixpoint system_all (w : World) (commands : list string) : list Z * World :=
  match commands with
  | [] => ([], w)
  | command :: commands =>
      let '(raw, w) := system w command in
      let '(raws, w) := system_all w commands in
      (raw :: raws, w)
  end.

(** [arg] is neither [-n] nor an assignment: it is kept as an extra
    argument.  [arg] assigns to [var]. *)
Definition is_extra_arg (arg : string) : bool :=
  negb (String.eqb arg "-n")
  && match fullmatch arg with Some _ => false | None => true end.

Definition assigns (var : string) (arg : string) : bool :=
  negb (String.eqb arg "-n")
  && match fullmatch arg with
     | Some (var', _) => bool_decide (var' = var)
     | None => false
     end.

(** How [run] ends once the generator has stopped with [o]. *)
Definition ending (o : Outcome) : list Effect * Status :=
  match o with
  | Done => ([], Returns)
  | Raised e => if caught e then ([Stderr e], Exit 1) else ([], Propagates e)
  | Diverged => ([], Hangs)
  end.

End Runner.

Arguments ArgCombiner : clear implicits.
Arguments Effect : clear implicits.
Arguments Status : clear implicits.

(** ** The callables of the test suite

    [test_argcomb.py] passes [lambda env: env["@x"]]; [env[key]] raises
    [KeyError] when the key is absent. *)

Inductive TestFn : Type :=
| EnvItem (key : string).

Inductive TestExn : Type :=
| KeyError (key : string).

Definition test_call (f : TestFn) (env : gmap string (Expr TestFn))
  : TestExn + Expr TestFn :=
  match f with
  | EnvItem key =>
      match env !! key with
      | Some v => inr v
      | None => inl (KeyError key)
      end
  end.

(** [check(expr, ...)] of the test suite, up to the rendering of the
    tokens: the token lists of the commands of [expr]. *)
Definition commands (fuel : nat) (expr : Expr TestFn)
  : list (list (Expr TestFn)) :=
  map (fun c => to_tokens c.1) (execute test_call [] fuel expr ∅).1.

(** ** The library functions, on the strings of the tests

    [re.fullmatch] on the pattern of [__init__], [json.loads] on
    integers, [true], [false] and [null], [str] on strings, integers,
    booleans and [None], and [shlex.quote], all on ASCII strings; and a
    world that is the list of the commands executed, in which the
    command [false] ends with exit code 1 and any other with 0. *)

Definition word_char (c : ascii) : bool :=
  let n := nat_of_ascii c in
  ((48 <=? n) && (n <=? 57) || (65 <=? n) && (n <=? 90)
   || (97 <=? n) && (n <=? 122) || (n =? 95))%nat.

Fixpoint span_word (s : string) : string * string :=
  match s with
  | String c s' =>
      if word_char c then
        let '(word, rest) := span_word s' in (String c word, rest)
      else (EmptyString, s)
  | EmptyString => (EmptyString, EmptyString)
  end.

Fixpoint has_newline (s : string) : bool :=
  match s with
  | String c s' => (nat_of_ascii c =? 10)%nat || has_newline s'
  | EmptyString => false
  end.

Definition test_fullmatch (arg : string) : option (string * string) :=
  match arg with
  | String "@" rest =>
      match span_word rest with
      | (String c word, String "=" value) =>
          if has_newline value then None
          else Some (String "@" (String c word), value)
      | _ => None
      end
  | _ => None
  end.

Fixpoint digits (s : string) (acc : Z) : option Z :=
  match s with
  | String c s' =>
      let n := nat_of_ascii c in
      if ((48 <=? n) && (n <=? 57))%nat
      then digits s' (10 * acc + Z.of_nat (n - 48))%Z
      else None
  | EmptyString => Some acc
  end.

Definition numeral (s : string) : option Z :=
  match s with
  | EmptyString => None
  | String "0" (String _ _) => None
  | _ => digits s 0
  end.

Definition test_json_loads (s : string) : option (Expr TestFn) :=
  if String.eqb s "true" then Some (PyBool true)
  else if String.eqb s "false" then Some (PyBool false)
  else if String.eqb s "null" then Some PyNone
  else
    match s with
    | String "-" s' => (fun z => PyInt (- z)) <$> numeral s'
    | _ => PyInt <$> numeral s
    end.

Definition test_str (e : Expr TestFn) : string :=
  match e with
  | PyStr s => s
  | PyInt z => pretty z
  | PyBool true => "True"
  | PyBool false => "False"
  | PyNone => "None"
  | _ => "<object>"
  end.

Definition single_quote : string := String (ascii_of_nat 39) EmptyString.
Definition double_quote : string := String (ascii_of_nat 34) EmptyString.

Fixpoint all_safe (s : string) : bool :=
  match s with
  | String c s' =>
      (word_char c
       || existsb (fun n => (nat_of_ascii c =? n)%nat)
            [64; 37; 43; 61; 58; 44; 46; 47; 45]%nat)
      && all_safe s'
  | EmptyString => true
  end.

Fixpoint escape_quotes (s : string) : string :=
  match s with
  | String c s' =>
      (if (nat_of_ascii c =? 39)%nat
       then single_quote +:+ double_quote +:+ single_quote +:+ double_quote
            +:+ single_quote
       else String c EmptyString) +:+ escape_quotes s'
  | EmptyString => EmptyString
  end.

Definition test_quote (s : string) : string :=
  match s with
  | EmptyString => single_quote +:+ single_quote
  | _ =>
      if all_safe s then s
      else single_quote +:+ escape_quotes s +:+ single_quote
  end.

Definition test_system (w : list string) (command : string)
  : Z * list string :=
  ((if String.eqb command "false" then 256 else 0)%Z, w ++ [command]).

Definition test_user_error (x : TestExn) : bool := false.

(** ** Properties *)

Section Properties.

Context {Fn FnExn : Type}.
Variable call : Fn → gmap string (Expr Fn) → FnExn + Expr Fn.

Local Abbreviation Env := (gmap string (Expr Fn)).
Local Abbreviation Gen := (@Iterator Fn FnExn).
Local Abbreviation resolve_which := (@resolve_which Fn FnExn).
Local Abbreviation lookup_env := (@lookup_env Fn FnExn).
Local Abbreviation Store := (list Env).
Local Abbreviation Ref := nat.
Local Abbreviation Resumption := (@Resumption Fn FnExn).
Local Abbreviation simulates := (@simulates Fn FnExn _ _).

(** *** Generators *)

Lemma for_items_ext {A B} (body body' : A → Gen B) (xs : list A) (o : Outcome) :
  (∀ x, x ∈ xs → body x = body' x) →
  for_items xs o body = for_items xs o body'.
Proof.
  induction xs as [|x xs IH]; simpl; intros Hext; [done|].
  rewrite <- (Hext x) by left.
  rewrite IH; [done|]. intros y Hy. apply Hext. by right.
Qed.

Lemma for_items_yield {A B} (f : A → B) (xs : list A) (o : Outcome) :
  for_items xs o (fun x => yield (f x)) = ((map f xs, o) : Gen B).
Proof.
  induction xs as [|x xs IH]; simpl; [done|].
  by rewrite IH.
Qed.

Lemma for_each_yield {A B} (f : A → B) (g : Gen A) :
  for_each g (fun x => yield (f x)) = (map f g.1, g.2).
Proof. apply for_items_yield. Qed.

Lemma for_each_yield_pair {A B C} (f : A → B → C) (g : Gen (A * B)) :
  for_each g (fun '(a, b) => yield (f a b)) = (map (fun p => f p.1 p.2) g.1, g.2).
Proof.
  rewrite <- for_each_yield. unfold for_each.
  apply for_items_ext. by intros [a b] _.
Qed.

(** *** Fuel *)

Lemma approx_refl {A} (g : Gen A) : approx g g.
Proof. unfold approx. by destruct g.2. Qed.

Lemma approx_stopped {A} (g g' : Gen A) : approx g g' → stopped g → g = g'.
Proof. unfold approx, stopped. by destruct g.2. Qed.

Lemma approx_diverged {A} (ys ys' : list A) (o' : Outcome) :
  ys `prefix_of` ys' → approx ((ys, Diverged) : Gen A) (ys', o').
Proof. done. Qed.

Lemma approx_trans {A} (g1 g2 g3 : Gen A) :
  approx g1 g2 → approx g2 g3 → approx g1 g3.
Proof.
  destruct g1 as [ys1 o1], g2 as [ys2 o2], g3 as [ys3 o3].
  unfold approx; simpl. intros H12 H23.
  destruct o1; try (injection H12 as -> <-; exact H23).
  destruct o2; try (injection H23 as <- <-; exact H12).
  by etrans.
Qed.

Lemma approx_app {A} (ys : list A) (g g' : Gen A) :
  approx g g' → approx (ys ++ g.1, g.2) (ys ++ g'.1, g'.2).
Proof.
  destruct g as [zs o], g' as [zs' o']. unfold approx; simpl.
  destruct o; try (by intros [= -> <-]).
  by apply prefix_app.
Qed.

Lemma for_items_approx {A B} (body body' : A → Gen B) (xs k : list A)
    (o o' : Outcome) :
  o = Diverged ∨ (k = [] ∧ o = o') →
  (∀ x, approx (body x) (body' x)) →
  approx (for_items xs o body) (for_items (xs ++ k) o' body').
Proof.
  intros Ho Hbody. induction xs as [|x xs IH]; simpl.
  - destruct Ho as [->|[-> ->]]; [|apply approx_refl].
    unfold approx; simpl. apply prefix_nil.
  - specialize (Hbody x).
    destruct (body x) as [ys ob], (body' x) as [ys' ob'].
    destruct (for_items xs o body) as [zs oz],
             (for_items (xs ++ k) o' body') as [zs' oz'].
    destruct ob.
    + apply approx_stopped in Hbody; [|done]. injection Hbody as <- <-.
      apply (approx_app ys (zs, oz) (zs', oz')), IH.
    + apply approx_stopped in Hbody; [|done]. injection Hbody as <- <-.
      apply approx_refl.
    + unfold approx in Hbody; simpl in Hbody.
      destruct ob'; apply approx_diverged; try done.
      etrans; [done|]. by apply prefix_app_r.
Qed.

Lemma for_each_approx {A B} (g g' : Gen A) (body body' : A → Gen B) :
  approx g g' →
  (∀ x, approx (body x) (body' x)) →
  approx (for_each g body) (for_each g' body').
Proof.
  destruct g as [xs o], g' as [xs' o']. unfold for_each; simpl.
  intros Hg Hbody.
  assert (o = Diverged ∨ stopped ((xs, o) : Gen A)) as [->|Ho]
    by (destruct o; [right|right|left]; done).
  - unfold approx in Hg; simpl in Hg. destruct Hg as [k ->].
    apply for_items_approx; auto.
  - apply approx_stopped in Hg; [|done]. injection Hg as <- <-.
    rewrite <- (app_nil_r xs) at 2. apply for_items_approx; auto.
Qed.

Lemma execute_list_step (n m : nat) :
  (∀ e env, approx (internal_execute call n e env)
                   (internal_execute call m e env)) →
  ∀ l env, approx (execute_list call (S n) l env)
                  (execute_list call (S m) l env).
Proof.
  intros IH [|first rest] env; simpl; [apply approx_refl|].
  apply for_each_approx; [apply IH|]. intros [new_first new_first_env].
  apply for_each_approx; [apply IH|]. intros [new_rest new_rest_env].
  apply approx_refl.
Qed.

Lemma internal_execute_step (n m : nat) :
  (∀ l env, approx (execute_list call n l env)
                   (execute_list call m l env)) →
  (∀ e env, approx (internal_execute call n e env)
                   (internal_execute call m e env)) →
  ∀ e env, approx (internal_execute call (S n) e env)
                  (internal_execute call (S m) e env).
Proof.
  intros IHl IHe e env.
  destruct e; simpl; try apply approx_refl.
  - apply for_each_approx; [apply IHl|]. intros []. apply approx_refl.
  - apply for_each_approx; [apply IHl|]. intros []. apply approx_refl.
  - destruct (canonical_choices _) as [choices|]; [|apply approx_refl].
    destruct (resolve_which _ _) as [x|which]; [apply approx_refl|].
    rewrite <- (app_nil_r (canonical_which choices which)) at 2.
    apply for_items_approx; [auto|]. intros key.
    destruct (negb (hashable key)); [apply approx_refl|].
    destruct (getitem choices key) as [choice|]; [|apply approx_refl].
    apply for_each_approx; [apply IHe|]. intros []. apply approx_refl.
  - destruct (_ || _); [|apply approx_refl].
    apply for_each_approx; [apply IHe|]. intros []. apply approx_refl.
  - destruct (call f env) as [x|body]; [apply approx_refl|].
    apply for_each_approx; [apply IHe|]. intros []. apply approx_refl.
Qed.

Lemma execute_fuel_S (n : nat) :
  (∀ l env, approx (execute_list call n l env)
                   (execute_list call (S n) l env)) ∧
  (∀ e env, approx (internal_execute call n e env)
                   (internal_execute call (S n) e env)).
Proof.
  induction n as [|n [IHl IHe]].
  - split; intros; unfold approx; simpl; apply prefix_nil.
  - split.
    + by apply execute_list_step.
    + by apply internal_execute_step.
Qed.

Lemma execute_fuel_le (n m : nat) :
  n ≤ m →
  (∀ l env, approx (execute_list call n l env)
                   (execute_list call m l env)) ∧
  (∀ e env, approx (internal_execute call n e env)
                   (internal_execute call m e env)).
Proof.
  induction 1 as [|m _ [IHl IHe]].
  - split; intros; apply approx_refl.
  - destruct (execute_fuel_S m) as [Hl He].
    split; intros; eapply approx_trans; eauto.
Qed.

(** Once a computation has stopped, more fuel does not change it. *)
Lemma internal_execute_fuel (n m : nat) e env (g : Gen (Expr Fn * Env)) :
  n ≤ m → internal_execute call n e env = g → stopped g →
  internal_execute call m e env = g.
Proof.
  intros Hle <- Hstop. symmetry.
  by apply approx_stopped; [apply execute_fuel_le|].
Qed.

Lemma execute_list_fuel (n m : nat) l env (g : Gen (list (Expr Fn) * Env)) :
  n ≤ m → execute_list call n l env = g → stopped g →
  execute_list call m l env = g.
Proof.
  intros Hle <- Hstop. symmetry.
  by apply approx_stopped; [apply execute_fuel_le|].
Qed.

Lemma evaluates_fuel e env (g : Gen (Expr Fn * Env)) :
  evaluates call e env g →
  ∃ n, ∀ m, n ≤ m → internal_execute call m e env = g.
Proof.
  intros (n & Hn & Hstop). exists n. intros m Hle.
  by apply (internal_execute_fuel n).
Qed.

Lemma list_evaluates_fuel l env (g : Gen (list (Expr Fn) * Env)) :
  list_evaluates call l env g →
  ∃ n, ∀ m, n ≤ m → execute_list call m l env = g.
Proof.
  intros (n & Hn & Hstop). exists n. intros m Hle.
  by apply (execute_list_fuel n).
Qed.

(** Evaluation is deterministic. *)
Lemma evaluates_unique e env (g g' : Gen (Expr Fn * Env)) :
  evaluates call e env g → evaluates call e env g' → g = g'.
Proof.
  intros [n Hn]%evaluates_fuel [m Hm]%evaluates_fuel.
  rewrite <- (Hn (n `max` m)), <- (Hm (n `max` m)); [done|lia..].
Qed.

(** *** The shape of what a list evaluates to *)

Lemma for_items_no_shape_error {A B} (body : A → Gen B) (xs : list A)
    (o : Outcome) :
  no_shape_error (([], o) : Gen B) →
  (∀ x, x ∈ xs → no_shape_error (body x)) →
  no_shape_error (for_items xs o body).
Proof.
  intros Ho Hbody. induction xs as [|x xs IH]; simpl; [done|].
  pose proof (Hbody x ltac:(left)) as Hx.
  destruct (body x) as [ys ob].
  assert (no_shape_error (for_items xs o body)) as Hrest.
  { apply IH. intros y Hy. apply Hbody. by right. }
  destruct (for_items xs o body) as [zs oz].
  destruct ob; done.
Qed.

Lemma internal_execute_list_yields (fuel : nat) l env :
  Forall (fun c => is_list c.1 = true)
         (internal_execute call fuel (PyList l) env).1.
Proof.
  destruct fuel as [|fuel]; simpl; [constructor|].
  rewrite for_each_yield_pair. simpl.
  apply Forall_map, Forall_true. done.
Qed.

Lemma execute_no_shape_error (fuel : nat) :
  (∀ l env, no_shape_error (execute_list call fuel l env)) ∧
  (∀ e env, no_shape_error (internal_execute call fuel e env)).
Proof.
  induction fuel as [|fuel [IHl IHe]]; [by split|]. split.
  - intros [|first rest] env; simpl; [done|].
    apply for_items_no_shape_error; [apply IHe|].
    intros [new_first new_first_env] _.
    apply for_items_no_shape_error; [apply IHe|].
    intros [new_rest new_rest_env] Hin.
    pose proof (internal_execute_list_yields fuel rest new_first_env) as Hl.
    rewrite Forall_forall in Hl. apply Hl in Hin.
    by destruct new_rest.
  - intros e env. destruct e; simpl; try done.
    + apply for_items_no_shape_error; [apply IHl|]. by intros [].
    + apply for_items_no_shape_error; [apply IHl|]. by intros [].
    + destruct (canonical_choices _) as [choices|]; [|done].
      destruct (resolve_which env e1) as [x|which] eqn:Hwhich.
      * intros rest new_rest. simpl.
        destruct e1; try done. simpl in Hwhich.
        destruct (String.prefix _ _); [|done].
        unfold lookup_env in Hwhich. destruct (env !! s); [done|].
        by injection Hwhich as <-.
      * apply for_items_no_shape_error; [done|]. intros key _.
        destruct (negb (hashable key)); [done|].
        destruct (getitem choices key) as [choice|]; [|done].
        apply for_items_no_shape_error; [apply IHe|]. by intros [].
    + destruct (_ || _); [|done].
      apply for_items_no_shape_error; [apply IHe|]. by intros [].
    + destruct (call f env) as [x|body]; [done|].
      apply for_items_no_shape_error; [apply IHe|]. by intros [].
Qed.

(** C10: every candidate the evaluator yields for a list expression is
    a list, whatever the fuel; hence the check
    [if not isinstance(new_rest, list): raise ValueError(...)] of
    [execute_list] never fires: neither [internal_execute] nor
    [execute_list] ends in the internal shape error. *)
Theorem list_candidates_are_lists (fuel : nat) :
  (∀ l env,
     Forall (fun c => is_list c.1 = true)
            (internal_execute call fuel (PyList l) env).1) ∧
  (∀ e env rest new_rest,
     (internal_execute call fuel e env).2
       ≠ Raised (InternalShapeError rest new_rest)) ∧
  (∀ l env rest new_rest,
     (execute_list call fuel l env).2
       ≠ Raised (InternalShapeError rest new_rest)).
Proof.
  destruct (execute_no_shape_error fuel) as [Hl He].
  split; [|split].
  - intros l env. apply internal_execute_list_yields.
  - intros e env. apply He.
  - intros l env. apply Hl.
Qed.

(** *** Lists *)

Lemma for_items_done {A B} (body : A → Gen B) (f : A → list B)
    (xs : list A) (o : Outcome) :
  (∀ x, x ∈ xs → body x = (f x, Done)) →
  for_items xs o body = (flat_map f xs, o).
Proof.
  induction xs as [|x xs IH]; simpl; intros Hbody; [done|].
  rewrite (Hbody x) by left. rewrite IH; [done|].
  intros y Hy. apply Hbody. by right.
Qed.

(** A fuel that is enough for every element of a finite list. *)
Lemma fuel_for_all {A} (P : nat → A → Prop) (xs : list A) :
  (∀ x, x ∈ xs → ∃ n, ∀ m, n ≤ m → P m x) →
  ∃ n, ∀ x, x ∈ xs → ∀ m, n ≤ m → P m x.
Proof.
  induction xs as [|x xs IH]; intros H.
  - exists 0. by intros x Hx%elem_of_nil.
  - destruct (H x) as [n Hn]; [by left|].
    destruct IH as [k Hk]; [intros y Hy; apply H; by right|].
    exists (n `max` k). intros y [->|Hy]%elem_of_cons m Hm.
    + apply Hn. lia.
    + apply Hk; [done|lia].
Qed.

Lemma evaluates_list l env (g : Gen (list (Expr Fn) * Env)) :
  list_evaluates call l env g →
  evaluates call (PyList l) env
    (map (fun c => (PyList c.1, c.2)) g.1, g.2).
Proof.
  intros (n & <- & Hstop). exists (S n). simpl.
  by rewrite for_each_yield_pair.
Qed.

Lemma list_evaluates_nil env :
  list_evaluates call [] env ([([], env)], Done).
Proof. by exists 1. Qed.

(** When the first element stops with [o] after the candidates [c0] and
    the rest returns under each of their environments, the list stops
    with [o] after the cross product. *)
Lemma list_evaluates_cons e0 rest env c0 o
    (cr : Env → list (list (Expr Fn) * Env)) :
  evaluates call e0 env (c0, o) →
  (∀ v0 env0, (v0, env0) ∈ c0 →
     list_evaluates call rest env0 (cr env0, Done)) →
  list_evaluates call (e0 :: rest) env (cross_product c0 cr, o).
Proof.
  intros He0 Hrest.
  assert (stopped ((c0, o) : Gen (Expr Fn * Env))) as Hstop
    by (by destruct He0 as (? & _ & ?)).
  apply evaluates_fuel in He0 as [n0 Hn0].
  destruct (fuel_for_all
              (fun m c => internal_execute call m (PyList rest) c.2
                          = (map (fun c1 => (PyList c1.1, c1.2)) (cr c.2),
                             Done))
              c0) as [n1 Hn1].
  { intros [v0 env0] Hin.
    apply Hrest, evaluates_list, evaluates_fuel in Hin. exact Hin. }
  exists (S (n0 `max` n1)). split; [|done]. simpl.
  rewrite Hn0 by lia. unfold for_each at 1; simpl.
  apply for_items_done. intros [v0 env0] Hin.
  rewrite (Hn1 _ Hin) by lia. unfold for_each; simpl.
  rewrite (for_items_done _
             (fun c1 : Expr Fn * Env =>
                match c1.1 with
                | PyList r => [(v0 :: r, c1.2)]
                | _ => []
                end)).
  - f_equal. induction (cr env0) as [|c1 l IH]; simpl; [done|].
    by rewrite IH.
  - intros [new_rest new_rest_env] [c1 [[= -> ->] _]]%list_elem_of_fmap.
    done.
Qed.

(** C1: evaluating the empty list yields exactly one pair, the empty
    list with the environment unchanged; evaluating [e0 :: rest], when
    [e0] has the candidates [c0] and the rest has the candidates
    [cr env0] under the environment of each of them, yields exactly the
    pairs [([v0] ++ restList, env1)], the candidates of [e0] in the outer
    loop and those of the rest in the inner loop. *)
Theorem execute_list_cross_product :
  (∀ env, list_evaluates call [] env ([([], env)], Done)) ∧
  (∀ e0 rest env c0 (cr : Env → list (list (Expr Fn) * Env)),
     evaluates call e0 env (c0, Done) →
     (∀ v0 env0, (v0, env0) ∈ c0 →
        list_evaluates call rest env0 (cr env0, Done)) →
     list_evaluates call (e0 :: rest) env (cross_product c0 cr, Done)).
Proof.
  split.
  - apply list_evaluates_nil.
  - intros e0 rest env c0 cr. apply list_evaluates_cons.
Qed.

(** *** Selectors *)

Lemma for_each_reyield {A B} (g : Gen (A * B)) :
  for_each g (fun '(a, b) => yield (a, b)) = g.
Proof.
  rewrite (for_each_yield_pair pair). destruct g as [xs o]; simpl.
  f_equal. induction xs as [|[a b] xs IH]; simpl; [done|]. by rewrite IH.
Qed.

Lemma for_items_all_done {A B} (body : A → Gen B) (xs : list A)
    (yss : list (list B)) (o : Outcome) :
  Forall2 (fun x ys => body x = (ys, Done)) xs yss →
  for_items xs o body = (concat yss, o).
Proof.
  induction 1 as [|x ys xs yss Hx _ IH]; simpl; [done|].
  by rewrite Hx, IH.
Qed.

Lemma for_items_stop {A B} (body : A → Gen B) (xs1 xs2 : list A) (x : A)
    (yss : list (list B)) (ys : list B) (o stop : Outcome) :
  Forall2 (fun x ys => body x = (ys, Done)) xs1 yss →
  body x = (ys, stop) → stop ≠ Done →
  for_items (xs1 ++ x :: xs2) o body = (concat yss ++ ys, stop).
Proof.
  intros Hxs1 Hx Hstop.
  induction Hxs1 as [|x1 ys1 xs1 yss Hx1 _ IH]; simpl.
  - rewrite Hx. by destruct stop.
  - rewrite Hx1, IH. by rewrite (assoc_L (++)).
Qed.

Lemma selects_fuel cs env (ks : list (Expr Fn)) cands :
  Forall2 (selects call cs env) ks cands →
  ∃ n, ∀ m, n ≤ m →
    Forall2 (fun key c => ∃ choice, hashable key = true ∧
                            getitem cs key = Some choice ∧
                            internal_execute call m choice env = (c, Done))
            ks cands.
Proof.
  induction 1 as [|key c ks cands (choice & Hh & Hg & He) _ [k Hk]].
  - exists 0. constructor.
  - apply evaluates_fuel in He as [n Hn].
    exists (n `max` k). intros m Hm. constructor.
    + exists choice. split_and!; [done..|]. apply Hn. lia.
    + apply Hk. lia.
Qed.

Lemma selector_loop cs env (m : nat) (ks : list (Expr Fn)) cands :
  Forall2 (fun key c => ∃ choice, hashable key = true ∧
                          getitem cs key = Some choice ∧
                          internal_execute call m choice env = (c, Done))
          ks cands →
  Forall2
    (fun key c =>
       (if negb (hashable key) then raise (TypeError key)
        else match getitem cs key with
             | None => raise (ArgcombException (NotInChoices key (keys cs)))
             | Some choice =>
                 for_each (internal_execute call m choice env)
                   (fun '(new_expr, new_env) => yield (new_expr, new_env))
             end) = ((c, Done) : Gen (Expr Fn * Env)))
    ks cands.
Proof.
  intros H. eapply Forall2_impl; [exact H|].
  intros key c (choice & -> & -> & <-). simpl.
  by rewrite for_each_reyield.
Qed.

Lemma keys_zip_range (l : list (Expr Fn)) :
  keys (zip_range l) = map PyInt (range (length l)).
Proof.
  unfold keys, zip_range.
  rewrite <- (map_map fst key_expr).
  change (map fst) with (fmap (M:=list) (@fst Key (Expr Fn))).
  rewrite fst_zip by (unfold range; rewrite !length_map, length_seq; lia).
  by rewrite map_map.
Qed.

Lemma getitem_zip_from (l : list (Expr Fn)) (k i : nat) :
  getitem (zip (map KInt (map Z.of_nat (seq k (length l)))) l)
    (PyInt (Z.of_nat (k + i)))
  = l !! i.
Proof.
  revert k i. induction l as [|x l IH]; intros k i; simpl; [done|].
  destruct i as [|i]; simpl.
  - rewrite Nat.add_0_r. by rewrite bool_decide_true.
  - rewrite bool_decide_false by lia.
    rewrite <- (IH (S k) i). do 3 f_equal. lia.
Qed.

Lemma getitem_zip_range (l : list (Expr Fn)) (i : nat) :
  getitem (zip_range l) (PyInt (Z.of_nat i)) = l !! i.
Proof. apply (getitem_zip_from l 0 i). Qed.






(** X23: when the key list of a selector reaches a key that can be
    hashed and is not in [choices], the selector stops with
    [UnknownChoice] after the candidates of the keys before it, and the
    keys after it contribute nothing; at a key that cannot be hashed it
    stops with [TypeError] in the same way; looking up an absent variable
    gives [UndefinedVariable], which a selector whose [which] names the
    variable raises before yielding anything. *)
Theorem selector_unknown_choice :
  (∀ which choices env cs w ks1 key ks2 cands,
     canonical_choices choices = Some cs →
     resolve_which env which = inr w →
     canonical_which cs w = ks1 ++ key :: ks2 →
     Forall2 (selects call cs env) ks1 cands →
     hashable key = true →
     getitem cs key = None →
     evaluates call (Selector which choices) env
       (concat cands, Raised (UnknownChoice key (keys cs)))) ∧
  (∀ which choices env cs w ks1 key ks2 cands,
     canonical_choices choices = Some cs →
     resolve_which env which = inr w →
     canonical_which cs w = ks1 ++ key :: ks2 →
     Forall2 (selects call cs env) ks1 cands →
     hashable key = false →
     evaluates call (Selector which choices) env
       (concat cands, Raised (TypeError key))) ∧
  (∀ (env : Env) key,
     env !! key = None →
     lookup_env env key = inl (UndefinedVariable key env)) ∧
  (∀ s choices env (cs : list (Key * Expr Fn)),
     canonical_choices choices = Some cs →
     String.prefix "@" s = true →
     env !! s = None →
     evaluates call (Selector (PyStr s) choices) env
       ([], Raised (UndefinedVariable s env))).
Proof.
  split_and!.
  - intros which choices env cs w ks1 key ks2 cands Hcs Hw Hks
      [n Hn]%selects_fuel Hhash Hget.
    exists (S n). split; [|done]. simpl. rewrite Hcs, Hw, Hks.
    rewrite <- (app_nil_r (concat cands)).
    apply for_items_stop; [|by rewrite Hhash, Hget|done].
    apply selector_loop, Hn. lia.
  - intros which choices env cs w ks1 key ks2 cands Hcs Hw Hks
      [n Hn]%selects_fuel Hhash.
    exists (S n). split; [|done]. simpl. rewrite Hcs, Hw, Hks.
    rewrite <- (app_nil_r (concat cands)).
    apply for_items_stop; [|by rewrite Hhash|done].
    apply selector_loop, Hn. lia.
  - intros env key Hkey. unfold lookup_env. by rewrite Hkey.
  - intros s choices env cs Hcs Hs Hkey.
    exists 1. split; [|done]. simpl. rewrite Hcs, Hs.
    unfold lookup_env. by rewrite Hkey.
Qed.

(** *** Bindings *)

Lemma dict_foldr (l : list (string * Expr Fn)) (d : Env) :
  fold_left (fun d kv => <[kv.1 := kv.2]> d) l d
  = foldr (fun kv => <[kv.1 := kv.2]>) d (reverse l).
Proof.
  revert d. induction l as [|kv l IH]; intros d; simpl; [done|].
  by rewrite IH, reverse_cons, foldr_app.
Qed.

Lemma dict_items (env : Env) : dict (items env) = env.
Proof.
  unfold dict, items. rewrite dict_foldr.
  change (foldr _ ∅ ?l) with (list_to_map (M:=Env) l).
  rewrite <- (list_to_map_to_list env) at 2.
  apply list_to_map_proper.
  - rewrite fmap_reverse, reverse_Permutation.
    apply NoDup_fst_map_to_list.
  - apply reverse_Permutation.
Qed.

Lemma dict_items_snoc (env : Env) var (v : Expr Fn) :
  dict (items env ++ [(var, v)]) = <[var := v]> env.
Proof.
  unfold dict. rewrite fold_left_app. simpl.
  f_equal. apply dict_items.
Qed.

(** C6: a binding with [if_undefined] whose variable is bound yields
    itself once with the environment it was given, whatever its value
    expression is and with any fuel that lets it start: the value is not
    evaluated.  In every other case it yields itself once for each
    candidate [(v, env')] of its value, with [env'] in which the
    variable maps to [v], and stops as the value does; the new
    environment is [env'] with the variable overwritten. *)
Theorem let_binding :
  (∀ fuel var value (env : Env),
     is_Some (env !! var) →
     internal_execute call (S fuel) (Let var value true) env
     = ([(Let var value true, env)], Done)) ∧
  (∀ var value if_undefined (env : Env) c o,
     if_undefined = false ∨ env !! var = None →
     evaluates call value env (c, o) →
     evaluates call (Let var value if_undefined) env
       (map (fun p => (Let var value if_undefined, <[var := p.1]> p.2)) c,
        o)) ∧
  (∀ (env' : Env) var (v : Expr Fn),
     dict (items env' ++ [(var, v)]) = <[var := v]> env' ∧
     <[var := v]> env' !! var = Some v ∧
     ∀ other, other ≠ var → <[var := v]> env' !! other = env' !! other).
Proof.
  split_and!.
  - intros fuel var value env Hvar. simpl.
    by rewrite bool_decide_true.
  - intros var value iu env c o Hcond (n & Hn & Hstop).
    exists (S n). split; [|done]. simpl.
    assert (negb iu || negb (bool_decide (is_Some (env !! var))) = true)
      as ->.
    { destruct Hcond as [->|Hnone]; [done|].
      rewrite bool_decide_false, orb_true_r; [done|].
      rewrite Hnone. by intros []. }
    rewrite Hn. unfold for_each; simpl.
    rewrite <- (for_items_yield
                  (fun p => (Let var value iu, <[var := p.1]> p.2))).
    apply for_items_ext. intros [v env'] _. simpl.
    by rewrite dict_items_snoc.
  - intros env' var v. split_and!.
    + apply dict_items_snoc.
    + apply lookup_insert_eq.
    + intros other Hne. by apply lookup_insert_ne.
Qed.

(** *** Flatten *)

Lemma Expr_list_ind (P : Expr Fn → Prop) :
  (∀ e, is_list e = false → P e) →
  (∀ l, Forall P l → P (PyList l)) →
  ∀ e, P e.
Proof.
  intros Hleaf Hlist. fix IH 1. intros e.
  destruct e as [| | | | |l| | | | |]; try (by apply Hleaf).
  apply Hlist. revert l. fix IHl 1. intros [|x l]; constructor.
  - apply IH.
  - apply IHl.
Qed.

Lemma flatten_leaf (e : Expr Fn) : is_list e = false → flatten e = [e].
Proof. by destruct e. Qed.

Lemma flatten_flat (e : Expr Fn) :
  Forall (fun y => is_list y = false) (flatten e).
Proof.
  induction e as [e He|l IH] using Expr_list_ind.
  - rewrite flatten_leaf by done. by constructor.
  - simpl. by apply Forall_flat_map.
Qed.

Lemma flatten_of_flat (l : list (Expr Fn)) :
  Forall (fun y => is_list y = false) l → flat_map flatten l = l.
Proof.
  induction 1 as [|y l Hy _ IH]; simpl; [done|].
  by rewrite flatten_leaf, IH.
Qed.

(** C7: [flatten] is idempotent, [flatten(flatten(x)) == flatten(x)] for
    every expression [x], and a list without a list among its elements
    is its own flattening. *)
Theorem flatten_idempotent :
  (∀ x : Expr Fn, flatten (PyList (flatten x)) = flatten x) ∧
  (∀ l : list (Expr Fn),
     Forall (fun y => is_list y = false) l → flatten (PyList l) = l).
Proof.
  split.
  - intros x. apply flatten_of_flat, flatten_flat.
  - intros l. apply flatten_of_flat.
Qed.

(** *** The argument resolver: accumulation *)

Lemma accumulate_app (l1 l2 : list (Expr Fn)) :
  accumulate (l1 ++ l2) = fold_left accumulate_step l2 (accumulate l1).
Proof. unfold accumulate. by rewrite fold_left_app. Qed.

Lemma accumulate_step_append (m : gmap string (list (Expr Fn))) name values
    delete :
  accumulate_step m (Arg name values true delete)
  = <[name := default [] (m !! name) ++ values]> m.
Proof.
  simpl. case_bool_decide as Hin.
  - destruct Hin as [vs Hvs]. rewrite Hvs. simpl.
    apply map_eq. intros k. destruct (decide (k = name)) as [->|Hne].
    + by rewrite lookup_alter_eq, lookup_insert_eq, Hvs.
    + by rewrite lookup_alter_ne, lookup_insert_ne.
  - assert (m !! name = None) as Hnone
      by (destruct (m !! name) eqn:E; [by destruct Hin|done]).
    rewrite Hnone. simpl.
    apply map_eq. intros k. destruct (decide (k = name)) as [->|Hne].
    + by rewrite lookup_alter_eq, !lookup_insert_eq.
    + by rewrite lookup_alter_ne, !lookup_insert_ne.
Qed.

Lemma accumulate_step_delete (m : gmap string (list (Expr Fn))) name values :
  accumulate_step m (Arg name values false true) = delete name m.
Proof.
  simpl. case_bool_decide; [done|]. by rewrite delete_insert_eq.
Qed.

Lemma accumulate_step_replace (m : gmap string (list (Expr Fn))) name values :
  accumulate_step m (Arg name values false false) = <[name := values]> m.
Proof.
  simpl. case_bool_decide; [done|]. by rewrite insert_insert_eq.
Qed.

Lemma accumulate_step_other (m : gmap string (list (Expr Fn))) name e :
  arg_named name e = false → accumulate_step m e !! name = m !! name.
Proof.
  destruct e as [| | | | | | |name' values append del| | |]; try done.
  simpl. intros Hne. case_bool_decide as Hne'; [done|]. clear Hne.
  destruct append; [|destruct del]; case_bool_decide;
    by rewrite ?lookup_alter_ne, ?lookup_delete_ne, ?lookup_insert_ne.
Qed.

Lemma fold_accumulate_other (m : gmap string (list (Expr Fn))) name l :
  Forall (fun e => arg_named name e = false) l →
  fold_left accumulate_step l m !! name = m !! name.
Proof.
  intros H. revert m. induction H as [|e l He _ IH]; intros m; simpl.
  - done.
  - by rewrite IH, accumulate_step_other.
Qed.

Lemma accumulate_last_replace (before after : list (Expr Fn)) name values :
  Forall (fun e => arg_named name e = false) after →
  accumulate (before ++ Arg name values false false :: after) !! name
  = Some values.
Proof.
  intros Hafter. rewrite accumulate_app. cbn [fold_left].
  rewrite fold_accumulate_other by done.
  by rewrite accumulate_step_replace, lookup_insert_eq.
Qed.

Lemma accumulate_last_append (before after : list (Expr Fn)) name values
    delete :
  Forall (fun e => arg_named name e = false) after →
  accumulate (before ++ Arg name values true delete :: after) !! name
  = Some (default [] (accumulate before !! name) ++ values).
Proof.
  intros Hafter. rewrite accumulate_app. cbn [fold_left].
  rewrite fold_accumulate_other by done.
  by rewrite accumulate_step_append, lookup_insert_eq.
Qed.

(** C4: the accumulation pass.  An append-mode [Arg] extends the list of
    its name, starting from the empty list when the name has no entry; a
    delete-mode [Arg] removes the entry, and leaves a mapping without
    the name as it is; a replace-mode [Arg] sets the entry to its own
    values; other tokens leave the mapping alone.  Hence the last
    replace of a name wins and an append adds to what was accumulated
    before it. *)
Theorem accumulate_modes :
  (∀ (m : gmap string (list (Expr Fn))) name values delete,
     accumulate_step m (Arg name values true delete)
     = <[name := default [] (m !! name) ++ values]> m) ∧
  (∀ (m : gmap string (list (Expr Fn))) name values,
     accumulate_step m (Arg name values false true) = delete name m ∧
     (m !! name = None →
      accumulate_step m (Arg name values false true) = m)) ∧
  (∀ (m : gmap string (list (Expr Fn))) name values,
     accumulate_step m (Arg name values false false)
     = <[name := values]> m) ∧
  (∀ (m : gmap string (list (Expr Fn))) e,
     is_arg e = false → accumulate_step m e = m) ∧
  (∀ (tokens : list (Expr Fn)) e,
     accumulate (tokens ++ [e]) = accumulate_step (accumulate tokens) e) ∧
  (∀ (before after : list (Expr Fn)) name values,
     Forall (fun e => arg_named name e = false) after →
     accumulate (before ++ Arg name values false false :: after) !! name
     = Some values) ∧
  (∀ (before after : list (Expr Fn)) name values delete,
     Forall (fun e => arg_named name e = false) after →
     accumulate (before ++ Arg name values true delete :: after) !! name
     = Some (default [] (accumulate before !! name) ++ values)).
Proof.
  split_and!.
  - apply accumulate_step_append.
  - intros m name values. split; [apply accumulate_step_delete|].
    intros Hnone. rewrite accumulate_step_delete. by apply delete_id.
  - apply accumulate_step_replace.
  - intros m e He. by destruct e.
  - intros tokens e. by rewrite accumulate_app.
  - apply accumulate_last_replace.
  - apply accumulate_last_append.
Qed.

(** *** The argument resolver: emission *)

Lemma emit_step_out (out : list (Expr Fn)) m e :
  emit_step (out, m) e
  = (out ++ (emit_step ([], m) e).1, (emit_step ([], m) e).2).
Proof.
  destruct e; simpl; rewrite ?app_nil_r; try done.
  by destruct (m !! name); simpl; rewrite ?app_nil_r.
Qed.

Lemma fold_emit (l : list (Expr Fn)) out m :
  fold_left emit_step l (out, m) = (out ++ (emit l m).1, (emit l m).2).
Proof.
  unfold emit. revert out m.
  induction l as [|e l IH]; intros out m; cbn [fold_left].
  - simpl. by rewrite app_nil_r.
  - rewrite emit_step_out, IH.
    destruct (emit_step ([], m) e) as [out1 m1] eqn:E. cbn [fst snd].
    rewrite (IH out1 m1). cbn [fst snd]. by rewrite (assoc_L (++)).
Qed.

Lemma emit_cons (e : Expr Fn) l m :
  emit (e :: l) m
  = ((emit_step ([], m) e).1 ++ (emit l (emit_step ([], m) e).2).1,
     (emit l (emit_step ([], m) e).2).2).
Proof.
  unfold emit at 1. cbn [fold_left].
  destruct (emit_step ([], m) e) as [out1 m1] eqn:E.
  by rewrite fold_emit.
Qed.

Lemma emit_app (l1 l2 : list (Expr Fn)) m :
  emit (l1 ++ l2) m
  = ((emit l1 m).1 ++ (emit l2 (emit l1 m).2).1, (emit l2 (emit l1 m).2).2).
Proof.
  unfold emit at 1. rewrite fold_left_app. fold (emit l1 m).
  destruct (emit l1 m) as [out1 m1]. by rewrite fold_emit.
Qed.

Lemma emit_step_other (e : Expr Fn) m name :
  arg_named name e = false → (emit_step ([], m) e).2 !! name = m !! name.
Proof.
  destruct e as [| | | | | | |name' values append del| | |]; try done.
  simpl. intros Hne. case_bool_decide as Hne'; [done|].
  destruct (m !! name'); simpl; [|done]. by rewrite lookup_delete_ne.
Qed.

Lemma emit_other (l : list (Expr Fn)) m name :
  Forall (fun e => arg_named name e = false) l →
  (emit l m).2 !! name = m !! name.
Proof.
  intros H. revert m. induction H as [|e l He _ IH]; intros m; [done|].
  rewrite emit_cons. cbn [snd]. by rewrite IH, emit_step_other.
Qed.

Lemma interpret_args_emit (exprs : list (Expr Fn)) :
  interpret_args exprs = (emit exprs (accumulate exprs)).1.
Proof. done. Qed.

(** The first occurrence of a name that has an entry carries the flag. *)
Lemma emitted_at_first (before after : list (Expr Fn)) name values append
    delete vs :
  Forall (fun e => arg_named name e = false) before →
  accumulate (before ++ Arg name values append delete :: after) !! name
    = Some vs →
  emitted_at (before ++ Arg name values append delete :: after)
    (length before) name vs.
Proof.
  intros Hbefore Hvs. unfold emitted_at.
  rewrite take_app_length.
  assert (drop (S (length before))
            (before ++ Arg name values append delete :: after) = after)
    as ->.
  { rewrite (cons_middle _ before after), (assoc_L (++)).
    apply drop_app_length'. rewrite length_app. simpl. lia. }
  set (m := accumulate _) in *. simpl.
  rewrite interpret_args_emit. fold m. rewrite emit_app. simpl.
  f_equal. rewrite emit_cons. simpl.
  rewrite (emit_other before m name Hbefore), Hvs. simpl.
  done.
Qed.

Lemma emit_step_absent (e : Expr Fn) m name :
  m !! name = None → arg_named name e = true → emit_step ([], m) e = ([], m).
Proof.
  destruct e as [| | | | | | |name' values append del| | |]; try done.
  simpl. intros Hnone Heq. case_bool_decide; [subst|done]. by rewrite Hnone.
Qed.

(** Once a name has no entry, its occurrences emit nothing. *)
Lemma emit_absent (l : list (Expr Fn)) m name :
  m !! name = None →
  emit l m = emit (List.filter (fun e => negb (arg_named name e)) l) m.
Proof.
  revert m. induction l as [|e l IH]; intros m Hnone; [done|].
  cbn [List.filter]. destruct (arg_named name e) eqn:He; cbn [negb].
  - rewrite emit_cons, (emit_step_absent e m name) by done.
    cbn [fst snd app]. rewrite <- IH by done. by destruct (emit l m).
  - rewrite !emit_cons.
    assert ((emit_step ([], m) e).2 !! name = None) as Hnone'
      by (by rewrite emit_step_other).
    by rewrite (IH _ Hnone').
Qed.

(** C2, as the code has it: when a name occurs, is deleted and is set or
    appended to again by its last occurrence, the name has accumulated
    values [vs], and the flag followed by [vs] is emitted at the
    position of the first occurrence of the name; from there on the name
    has no entry, and a token list emits what it emits without its
    occurrences of the name: nothing is emitted at the later one. *)
Theorem argument_emitted_at_first_occurrence
    (before mid1 mid2 after : list (Expr Fn)) name v0 a0 d0 vd v a d :
  Forall (fun e => arg_named name e = false) before →
  Forall (fun e => arg_named name e = false) after →
  a = true ∨ d = false →
  let tokens :=
    before ++ Arg name v0 a0 d0 ::
    mid1 ++ Arg name vd false true ::
    mid2 ++ Arg name v a d :: after in
  ∃ vs,
    accumulate tokens !! name = Some vs ∧
    emitted_at tokens (length before) name vs ∧
    ∀ (l : list (Expr Fn)) m,
      m !! name = None →
      emit l m = emit (List.filter (fun e => negb (arg_named name e)) l) m.
Proof.
  intros Hbefore Hafter Hmode tokens.
  assert (∃ vs, accumulate tokens !! name = Some vs) as [vs Hvs].
  { unfold tokens.
    rewrite (app_comm_cons mid1), (app_comm_cons mid2), !(assoc_L (++)).
    destruct a.
    - eexists. by apply accumulate_last_append.
    - destruct Hmode as [?| ->]; [done|].
      eexists. by apply accumulate_last_replace. }
  exists vs. split_and!; [done| |].
  - by apply emitted_at_first.
  - intros l m. apply emit_absent.
Qed.

(** *** The argument resolver: what the output is made of *)

Lemma accumulate_step_Forall (Q : Expr Fn → Prop) m e :
  map_Forall (fun _ vs => Forall Q vs) m →
  (∀ name values a d, e = Arg name values a d → Forall Q values) →
  map_Forall (fun _ vs => Forall Q vs) (accumulate_step m e).
Proof.
  intros Hm He.
  destruct e as [| | | | | | |name values append del| | |]; try done.
  specialize (He _ _ _ _ eq_refl).
  destruct append; [|destruct del].
  - rewrite accumulate_step_append. apply map_Forall_insert_2; [|done].
    apply Forall_app. split; [|done].
    destruct (m !! name) as [vs|] eqn:Hvs; simpl; [|constructor].
    by apply (Hm name).
  - rewrite accumulate_step_delete. by apply map_Forall_delete.
  - rewrite accumulate_step_replace. by apply map_Forall_insert_2.
Qed.

Lemma fold_accumulate_Forall (Q : Expr Fn → Prop) (l : list (Expr Fn)) m :
  map_Forall (fun _ vs => Forall Q vs) m →
  (∀ name values a d, Arg name values a d ∈ l → Forall Q values) →
  map_Forall (fun _ vs => Forall Q vs) (fold_left accumulate_step l m).
Proof.
  revert m. induction l as [|e l IH]; intros m Hm Hl; [done|].
  cbn [fold_left]. apply IH.
  - apply accumulate_step_Forall; [done|].
    intros name values a d ->. apply (Hl name values a d). by left.
  - intros name values a d Hin. apply (Hl name values a d). by right.
Qed.

Lemma accumulate_Forall (Q : Expr Fn → Prop) (tokens : list (Expr Fn)) :
  (∀ name values a d, Arg name values a d ∈ tokens → Forall Q values) →
  map_Forall (fun _ vs => Forall Q vs) (accumulate tokens).
Proof. apply fold_accumulate_Forall, map_Forall_empty. Qed.

(** What the second loop emits: for an [Arg], its flag and values of
    the mapping; for a [Let], nothing; any other token itself. *)
Lemma emit_Forall (R : Expr Fn → Prop) (l : list (Expr Fn)) m :
  map_Forall (fun _ vs => Forall R vs) m →
  Forall (fun e => match e with
                   | Arg name _ _ _ => R (PyStr ("--" +:+ name))
                   | Let _ _ _ => True
                   | _ => R e
                   end) l →
  Forall R (emit l m).1.
Proof.
  intros Hm Hl. revert m Hm.
  induction Hl as [|e l He _ IH]; intros m Hm; [constructor|].
  rewrite emit_cons. cbn [fst]. apply Forall_app.
  destruct e as [| | | | | | |name values append del| | |];
    try (split; [by repeat constructor|by apply IH]).
  simpl. destruct (m !! name) as [vs|] eqn:Hvs; simpl.
  - split; [constructor; [done|by apply (Hm name)]|].
    by apply IH, map_Forall_delete.
  - split; [constructor|by apply IH].
Qed.

(** C3, as the code has it: every token of the output is a token of the
    input that is neither an [Arg] nor a [Let], or the flag of an [Arg]
    of the input, or one of the values of an [Arg] of the input; so the
    output holds no [Arg] and no [Let] when no [Arg] of the input
    carries one among its values. *)
Theorem interpret_args_output (tokens : list (Expr Fn)) :
  Forall (fun x =>
            (x ∈ tokens ∧ is_marker x = false) ∨
            (∃ name values a d,
               Arg name values a d ∈ tokens ∧ x = PyStr ("--" +:+ name)) ∨
            (∃ name values a d,
               Arg name values a d ∈ tokens ∧ x ∈ values))
         (interpret_args tokens) ∧
  ((∀ name values a d,
      Arg name values a d ∈ tokens →
      Forall (fun v => is_marker v = false) values) →
   Forall (fun x => is_marker x = false) (interpret_args tokens)).
Proof.
  rewrite interpret_args_emit. split.
  - apply emit_Forall.
    + apply accumulate_Forall. intros name values a d Hin.
      apply Forall_forall. intros x Hx. right; right.
      by exists name, values, a, d.
    + apply Forall_forall. intros e He.
      destruct e; try (by left).
      * right; left. by eexists _, _, _, _.
      * done.
  - intros Hvalues. apply emit_Forall.
    + by apply accumulate_Forall.
    + apply Forall_forall. intros e _. by destruct e.
Qed.

(** *** Environments as objects *)

Section Simulation.

Context {A A' B B' : Type}.
Variable R : Store → A → A' → Prop.
Variable R' : Store → B → B' → Prop.
Hypothesis R_mono : ∀ st st' x x', st `prefix_of` st' → R st x x' → R st' x x'.

Lemma simulates_weaken (Q : Store → B → B' → Prop) o st0 st1
    (r : Resumption B) ys :
  st0 `prefix_of` st1 → simulates Q o st1 r ys → simulates Q o st0 r ys.
Proof.
  intros Hpre Hsim. destruct Hsim.
  - constructor. by etrans.
  - constructor; [by etrans|done..].
Qed.

Lemma simulates_and_then o o2 st0 (r : Resumption B) ys ys2 next :
  simulates R' o st0 r ys →
  (o = Done →
   ∀ st, st0 `prefix_of` st → simulates R' o2 st (next st) ys2) →
  simulates R' (match o with Done => o2 | _ => o end) st0
    (and_then r next) (match o with Done => ys ++ ys2 | _ => ys end).
Proof.
  intros Hsim. induction Hsim as [st0 st Hpre|st0 x x' st resume ys Hpre Hx _ IH];
    intros Hnext.
  - destruct o; simpl; try by constructor.
    apply (simulates_weaken _ _ _ st); [done|]. by apply Hnext.
  - assert (simulates R' (match o with Done => o2 | _ => o end) st0
              (Yielded x st (fun st' => and_then (resume st') next))
              (x' :: match o with Done => ys ++ ys2 | _ => ys end)) as H.
    { constructor; [done..|]. intros st' Hst'. apply IH; [done|].
      intros Ho st2 Hst2. apply Hnext; [done|]. by repeat (etrans; [done|]). }
    by destruct o.
Qed.

Lemma simulates_for_each o st0 (g : Resumption A) xs
    (body : A → Store → Resumption B) (body' : A' → Gen B') :
  simulates R o st0 g xs →
  (∀ x x' st, st0 `prefix_of` st → R st x x' →
     simulates R' (body' x').2 st (body x st) (body' x').1) →
  simulates R' (for_items xs o body').2 st0
    (for_each_st g body) (for_items xs o body').1.
Proof.
  intros Hsim. induction Hsim as [st0 st Hpre|st0 x x' st resume xs Hpre Hx _ IH];
    intros Hbody; simpl.
  - by constructor.
  - pose proof (Hbody x x' st Hpre Hx) as Hx'.
    destruct (body' x') as [ys1 o1]. simpl in Hx'.
    apply (simulates_weaken _ _ _ st); [done|].
    eapply (simulates_and_then o1 (for_items xs o body').2 st _ ys1
              (for_items xs o body').1) in Hx'.
    + destruct (for_items xs o body') as [zs oz]. by destruct o1.
    + intros _ st' Hst'. apply IH; [done|].
      intros y y' st2 Hst2. apply Hbody. by repeat (etrans; [done|]).
Qed.

End Simulation.

Lemma simulates_for_items {A B B'} (Q : Store → B → B' → Prop) (xs : list A)
    (body : A → Store → Resumption B) (body' : A → Gen B') st0 :
  (∀ x st, st0 `prefix_of` st →
     simulates Q (body' x).2 st (body x st) (body' x).1) →
  simulates Q (for_items xs Done body').2 st0
    (for_items_st xs body st0) (for_items xs Done body').1.
Proof.
  revert st0. induction xs as [|x xs IH]; intros st0 Hbody; simpl.
  - by constructor.
  - pose proof (Hbody x st0 ltac:(done)) as Hx.
    destruct (body' x) as [ys1 o1]. simpl in Hx.
    eapply (simulates_and_then Q o1 (for_items xs Done body').2 st0 _ ys1
              (for_items xs Done body').1) in Hx.
    + destruct (for_items xs Done body') as [zs oz]. by destruct o1.
    + intros _ st Hst. apply IH. intros y st2 Hst2. apply Hbody.
      by etrans.
Qed.

Lemma points_to_mono {V} (st st' : Store) (c : V * Ref) (c' : V * Env) :
  st `prefix_of` st' → points_to st c c' → points_to st' c c'.
Proof.
  intros Hpre [Hv Hr]. split; [done|]. by eapply prefix_lookup_Some.
Qed.

Lemma deref_points_to {V} (st : Store) (c : V * Ref) (c' : V * Env) :
  points_to st c c' → deref st c.2 = c'.2.
Proof. intros [_ Hr]. unfold deref. by rewrite Hr. Qed.

Lemma simulates_yield_st {V V'} (Q : Store → V → V' → Prop) st0 st x x' :
  st0 `prefix_of` st → Q st x x' →
  simulates Q Done st0 (yield_st x st) [x'].
Proof.
  intros Hpre Hx. constructor; [done..|]. intros st' Hst'. by constructor.
Qed.

(** The evaluator over the store yields what the evaluator over
    environments as values yields, and only ever extends the store. *)
Lemma execute_st_simulates (fuel : nat) :
  (∀ l env (st : Store) d,
     st !! env = Some d →
     simulates points_to (execute_list call fuel l d).2 st
       (execute_list_st call fuel l env st) (execute_list call fuel l d).1) ∧
  (∀ e env (st : Store) d,
     st !! env = Some d →
     simulates points_to (internal_execute call fuel e d).2 st
       (internal_execute_st call fuel e env st)
       (internal_execute call fuel e d).1).
Proof.
  induction fuel as [|fuel [IHl IHe]]; [by split; constructor|]. split.
  - intros [|first rest] env st d Hd; simpl.
    { by apply simulates_yield_st. }
    apply (simulates_for_each points_to); [by apply IHe|].
    intros [new_first r1] [new_first' env1] st1 Hst1 [Hv1 Hr1].
    simpl in Hv1, Hr1. subst new_first'.
    apply (simulates_for_each points_to); [by apply IHe|].
    intros [new_rest r2] [new_rest' env2] st2 Hst2 [Hv2 Hr2].
    simpl in Hv2, Hr2. subst new_rest'.
    destruct new_rest; try by constructor.
    by apply simulates_yield_st.
  - intros e env st d Hd.
    assert (deref st env = d) as Hderef by (unfold deref; by rewrite Hd).
    destruct e; simpl; try by apply simulates_yield_st.
    + apply (simulates_for_each points_to); [by apply IHl|].
      intros [v r1] [v' env1] st1 Hst1 [Hv1 Hr1]. simpl in Hv1, Hr1. subst v'.
      by apply simulates_yield_st.
    + apply (simulates_for_each points_to); [by apply IHl|].
      intros [v r1] [v' env1] st1 Hst1 [Hv1 Hr1]. simpl in Hv1, Hr1. subst v'.
      by apply simulates_yield_st.
    + destruct (canonical_choices _) as [choices|]; [|by constructor].
      rewrite Hderef.
      destruct (resolve_which d e1) as [x|which]; [by constructor|].
      apply simulates_for_items. intros key st1 Hst1.
      destruct (negb (hashable key)); [by constructor|].
      destruct (getitem choices key) as [choice|]; [|by constructor].
      apply (simulates_for_each points_to).
      { apply IHe. by eapply prefix_lookup_Some. }
      intros [v r1] [v' env1] st2 Hst2 [Hv1 Hr1]. simpl in Hv1, Hr1. subst v'.
      by apply simulates_yield_st.
    + rewrite Hderef. destruct (_ || _); [|by apply simulates_yield_st].
      apply (simulates_for_each points_to); [by apply IHe|].
      intros [v r1] [v' env1] st1 Hst1 [Hv1 Hr1]. simpl in Hv1, Hr1. subst v'.
      apply simulates_yield_st; [by apply prefix_app_r|].
      split; [done|]. simpl. unfold deref. rewrite Hr1. simpl.
      by rewrite lookup_app_r, Nat.sub_diag.
    + rewrite Hderef. destruct (call f d) as [x|body]; [by constructor|].
      apply (simulates_for_each points_to); [by apply IHe|].
      intros [v r1] [v' env1] st1 Hst1 [Hv1 Hr1]. simpl in Hv1, Hr1. subst v'.
      by apply simulates_yield_st.
Qed.

Lemma simulates_drain {A A'} (Q : Store → A → A' → Prop) o st0
    (r : Resumption A) (ys : list A') :
  (∀ st st' x x', st `prefix_of` st' → Q st x x' → Q st' x x') →
  simulates Q o st0 r ys →
  st0 `prefix_of` (drain r).2 ∧
  (drain r).1.2 = o ∧
  Forall2 (fun y x' => st0 `prefix_of` y.2 ∧ y.2 `prefix_of` (drain r).2 ∧
                       Q (drain r).2 y.1 x')
          (drain r).1.1 ys.
Proof.
  intros Hmono Hsim.
  induction Hsim as [st0 st Hpre|st0 x x' st resume ys Hpre Hx _ IH]; simpl.
  - by split_and!.
  - destruct (IH st ltac:(done)) as (Hst & Ho & Hys).
    destruct (drain (resume st)) as [[t o'] st']. simpl in *.
    split_and!; [by etrans|done|]. constructor.
    + simpl. split_and!; [done..|]. by eapply Hmono.
    + eapply Forall2_impl; [exact Hys|].
      intros y y' (? & ? & ?). split_and!; [by etrans|done..].
Qed.

Lemma let_simulates_fresh (fuel : nat) var value if_undefined env
    (st : Store) d :
  st !! env = Some d →
  if_undefined = false ∨ d !! var = None →
  simulates
    (fun st1 c c' => points_to st1 c c' ∧ length st ≤ c.2)
    (internal_execute call fuel (Let var value if_undefined) d).2 st
    (internal_execute_st call fuel (Let var value if_undefined) env st)
    (internal_execute call fuel (Let var value if_undefined) d).1.
Proof.
  intros Hd Hcond. destruct fuel as [|fuel]; [by constructor|]. simpl.
  assert (deref st env = d) as -> by (unfold deref; by rewrite Hd).
  assert (negb if_undefined || negb (bool_decide (is_Some (d !! var)))
          = true) as ->.
  { destruct Hcond as [->|Hnone]; [done|].
    rewrite bool_decide_false, orb_true_r; [done|].
    rewrite Hnone. by intros []. }
  apply (simulates_for_each points_to).
  { by apply execute_st_simulates. }
  intros [v r1] [v' env1] st1 Hst1 [Hv1 Hr1]. simpl in Hv1, Hr1. subst v'.
  apply simulates_yield_st; [by apply prefix_app_r|].
  split; [|by apply prefix_length].
  split; [done|]. simpl. unfold deref. rewrite Hr1. simpl.
  by rewrite lookup_app_r, Nat.sub_diag.
Qed.

Lemma Forall2_left {A B} (P : A → Prop) (Q : A → B → Prop) l k :
  Forall2 Q l k → (∀ x y, Q x y → P x) → Forall P l.
Proof. induction 1; constructor; eauto. Qed.

Lemma points_to_map {V} (final : Store) (t : list (V * Ref * Store))
    (ys : list (V * Env)) :
  Forall2 (fun y x' => points_to final y.1 x') t ys →
  map (fun y => (y.1.1, deref final y.1.2)) t = ys.
Proof.
  induction 1 as [|y [v e] t ys Hy _ IH]; simpl; [done|].
  rewrite IH, (deref_points_to _ _ _ Hy). by destruct Hy as [-> _].
Qed.

(** C8: the evaluator run over a store of dict objects, consumed to the
    end.  Every dict of the store it was started on, the environment it
    was given among them, is the same dict at each [yield] and at the
    end; what it yields, read in the store at the end, is what the
    evaluator yields on environments as values, where a branch cannot
    see what another one bound; and the environment a binding yields,
    when it binds, is an object that was not in the store before. *)
Theorem evaluation_preserves_environments (fuel : nat) expr (env : Ref)
    (st : Store) d :
  st !! env = Some d →
  let run := drain (internal_execute_st call fuel expr env st) in
  (∀ r d0, st !! r = Some d0 →
     run.2 !! r = Some d0 ∧ Forall (fun y => y.2 !! r = Some d0) run.1.1) ∧
  (map (fun y => (y.1.1, deref run.2 y.1.2)) run.1.1, run.1.2)
  = internal_execute call fuel expr d ∧
  (∀ var value if_undefined,
     expr = Let var value if_undefined →
     if_undefined = false ∨ d !! var = None →
     Forall (fun y => length st ≤ y.1.2) run.1.1).
Proof.
  intros Hd run.
  destruct (execute_st_simulates fuel) as [_ He].
  pose proof (simulates_drain _ _ _ _ _ points_to_mono
                (He expr env st d Hd)) as (Hst & Ho & Hys).
  fold run in Hst, Ho, Hys. split_and!.
  - intros r d0 Hr. split; [by eapply prefix_lookup_Some|].
    eapply Forall2_left; [exact Hys|]. intros y x' (Hy & _).
    by eapply prefix_lookup_Some.
  - rewrite Ho. rewrite (points_to_map run.2 _ (internal_execute call fuel expr d).1).
    + by destruct (internal_execute call fuel expr d).
    + eapply Forall2_impl; [exact Hys|]. by intros y x' (_ & _ & ?).
  - intros var value iu -> Hcond.
    pose proof (let_simulates_fresh fuel var value iu env st d Hd Hcond)
      as Hfresh.
    apply simulates_drain in Hfresh as (_ & _ & Hfresh).
    + eapply Forall2_left; [exact Hfresh|]. by intros y x' (_ & _ & _ & ?).
    + intros st1 st2 x x' Hpre [Hx ?]. split; [|done].
      by eapply points_to_mono.
Qed.

(** *** What every candidate keeps *)

Lemma for_items_Forall {A B} (P : B → Prop) (body : A → Gen B)
    (xs : list A) (o : Outcome) :
  (∀ x, x ∈ xs → Forall P (body x).1) →
  Forall P (for_items xs o body).1.
Proof.
  induction xs as [|x xs IH]; intros Hbody; simpl; [constructor|].
  pose proof (Hbody x ltac:(left)) as Hx.
  assert (Forall P (for_items xs o body).1) as Hrest.
  { apply IH. intros y Hy. apply Hbody. by right. }
  destruct (body x) as [ys ob], (for_items xs o body) as [zs oz].
  destruct ob; simpl in *; try done. by apply Forall_app.
Qed.

Lemma execute_keeps_shape (fuel : nat) :
  (∀ l env,
     Forall (fun c => length c.1 = length l)
            (execute_list call fuel l env).1) ∧
  (∀ l env,
     Forall (fun c => ∃ r, c.1 = PyList r ∧ length r = length l)
            (internal_execute call fuel (PyList l) env).1).
Proof.
  induction fuel as [|fuel [IHl IHe]]; [by split; constructor|]. split.
  - intros [|first rest] env; simpl; [by repeat constructor|].
    apply for_items_Forall. intros [new_first new_first_env] _.
    apply for_items_Forall. intros [new_rest new_rest_env] Hin.
    pose proof (IHe rest new_first_env) as Hrest.
    rewrite Forall_forall in Hrest.
    destruct (Hrest _ Hin) as (r & Hr & Hlen). simpl in Hr. subst new_rest.
    repeat constructor. simpl. by rewrite Hlen.
  - intros l env. simpl. apply for_items_Forall.
    intros [new_expr new_env] Hin.
    pose proof (IHl l env) as Hl. rewrite Forall_forall in Hl.
    repeat constructor. simpl. exists new_expr. split; [done|].
    by apply (Hl _ Hin).
Qed.

(** X1: whatever the fuel, a candidate of a list is a list of the same
    length, a candidate of an [Arg] is an [Arg] of the same name and mode
    with as many values, and a candidate of a [Let] is the [Let] itself,
    its value expression as written. *)
Theorem candidates_keep_shape (fuel : nat) :
  (∀ l env,
     Forall (fun c => ∃ r, c.1 = PyList r ∧ length r = length l)
            (internal_execute call fuel (PyList l) env).1) ∧
  (∀ name values append delete env,
     Forall (fun c => ∃ r, c.1 = Arg name r append delete ∧
                           length r = length values)
            (internal_execute call fuel (Arg name values append delete)
               env).1) ∧
  (∀ var value if_undefined env,
     Forall (fun c => c.1 = Let var value if_undefined)
            (internal_execute call fuel (Let var value if_undefined) env).1).
Proof.
  split_and!.
  - apply execute_keeps_shape.
  - intros name values append delete env.
    destruct fuel as [|fuel]; simpl; [constructor|].
    apply for_items_Forall. intros [new_values new_env] Hin.
    destruct (execute_keeps_shape fuel) as [Hl _].
    specialize (Hl values env). rewrite Forall_forall in Hl.
    repeat constructor. simpl. exists new_values. split; [done|].
    by apply (Hl _ Hin).
  - intros var value if_undefined env.
    destruct fuel as [|fuel]; simpl; [constructor|].
    destruct (_ || _); [|by repeat constructor].
    apply for_items_Forall. intros [new_value new_env] _.
    by repeat constructor.
Qed.

Lemma execute_keeps_bindings (fuel : nat) :
  (∀ l (env : Env),
     Forall (fun c => dom env ⊆ dom c.2) (execute_list call fuel l env).1) ∧
  (∀ e (env : Env),
     Forall (fun c => dom env ⊆ dom c.2)
            (internal_execute call fuel e env).1).
Proof.
  induction fuel as [|fuel [IHl IHe]]; [by split; constructor|]. split.
  - intros [|first rest] env; simpl; [by repeat constructor|].
    apply for_items_Forall. intros [new_first env0] Hin0.
    pose proof (IHe first env) as H0. rewrite Forall_forall in H0.
    specialize (H0 _ Hin0). simpl in H0.
    apply for_items_Forall. intros [new_rest env1] Hin1.
    pose proof (IHe (PyList rest) env0) as H1. rewrite Forall_forall in H1.
    specialize (H1 _ Hin1). simpl in H1.
    destruct new_rest; simpl; try constructor; [|constructor].
    simpl. set_solver.
  - intros e env.
    assert (∀ (g : Gen (Expr Fn * Env)),
              Forall (fun c => dom env ⊆ dom c.2) g.1 →
              Forall (fun c => dom env ⊆ dom c.2)
                (for_each g (fun '(new_expr, new_env) =>
                               yield (new_expr, new_env))).1) as Hre.
    { intros g Hg. by rewrite for_each_reyield. }
    destruct e as [| | | | |l|d|name values append del|which choices
                  |var value iu|f]; simpl; try by repeat constructor.
    + apply for_items_Forall. intros [new_expr new_env] Hin.
      pose proof (IHl l env) as H. rewrite Forall_forall in H.
      repeat constructor. by apply (H _ Hin).
    + apply for_items_Forall. intros [new_values new_env] Hin.
      pose proof (IHl values env) as H. rewrite Forall_forall in H.
      repeat constructor. by apply (H _ Hin).
    + destruct (canonical_choices _) as [cs|]; [|constructor].
      destruct (resolve_which env which) as [x|w]; [constructor|].
      apply for_items_Forall. intros key _.
      destruct (negb (hashable key)); [constructor|].
      destruct (getitem cs key) as [choice|]; [|constructor].
      apply Hre, IHe.
    + destruct (_ || _); [|by repeat constructor].
      apply for_items_Forall. intros [new_value new_env] Hin.
      pose proof (IHe value env) as H. rewrite Forall_forall in H.
      specialize (H _ Hin). simpl in H.
      repeat constructor. simpl. rewrite dict_items_snoc, dom_insert.
      set_solver.
    + destruct (call f env) as [x|body]; [constructor|].
      apply Hre, IHe.
Qed.

(** X2: evaluation never removes a binding: whatever the fuel, every
    variable of the environment an expression is evaluated under is a
    variable of the environment of each of its candidates. *)
Theorem bindings_are_kept (fuel : nat) (e : Expr Fn) (env : Env) :
  Forall (fun c => ∀ var, is_Some (env !! var) → is_Some (c.2 !! var))
         (internal_execute call fuel e env).1.
Proof.
  destruct (execute_keeps_bindings fuel) as [_ He].
  eapply Forall_impl; [apply (He e env)|].
  intros c Hdom var Hvar. apply elem_of_dom. apply elem_of_dom in Hvar.
  set_solver.
Qed.

(** *** Expressions without selectors, bindings and callables *)

Lemma Expr_values_ind (P : Expr Fn → Prop) :
  (∀ l, Forall P l → P (PyList l)) →
  (∀ name values append delete,
     Forall P values → P (Arg name values append delete)) →
  (∀ e, is_list e = false → is_arg e = false → P e) →
  ∀ e, P e.
Proof.
  intros Hlist Harg Hother. fix IH 1. intros e.
  assert (∀ l : list (Expr Fn), Forall P l) as Hall.
  { fix IHl 1. intros [|x l]; constructor; [apply IH|apply IHl]. }
  destruct e as [| | | | |l| |name values append del| | |];
    try (by apply Hother).
  - apply Hlist, Hall.
  - apply Harg, Hall.
Qed.

Lemma evaluates_arg name values append delete env
    (g : Gen (list (Expr Fn) * Env)) :
  list_evaluates call values env g →
  evaluates call (Arg name values append delete) env
    (map (fun c => (Arg name c.1 append delete, c.2)) g.1, g.2).
Proof.
  intros (n & <- & Hstop). exists (S n). simpl.
  by rewrite (for_each_yield_pair (fun r e => (Arg name r append delete, e))).
Qed.

Lemma list_evaluates_itself (l : list (Expr Fn)) :
  Forall (fun x => ∀ env, evaluates call x env ([(x, env)], Done)) l →
  ∀ env, list_evaluates call l env ([(l, env)], Done).
Proof.
  induction 1 as [|x l Hx _ IH]; intros env; [apply list_evaluates_nil|].
  apply (list_evaluates_cons x l env [(x, env)] Done
           (fun env0 => [(l, env0)])); [apply Hx|].
  intros v0 env0 _. apply IH.
Qed.

Lemma plain_evaluates (e : Expr Fn) :
  plain e = true → ∀ env, evaluates call e env ([(e, env)], Done).
Proof.
  induction e as [l IH|name values append del IH|e Hlist Harg]
    using Expr_values_ind; simpl; intros Hplain env.
  - apply (evaluates_list l env ([(l, env)], Done)), list_evaluates_itself.
    rewrite forallb_forall in Hplain. rewrite Forall_forall in IH.
    apply Forall_forall. intros x Hx. apply IH; [done|].
    by apply Hplain, list_elem_of_In.
  - apply (evaluates_arg name values append del env ([(values, env)], Done)),
      list_evaluates_itself.
    rewrite forallb_forall in Hplain. rewrite Forall_forall in IH.
    apply Forall_forall. intros x Hx. apply IH; [done|].
    by apply Hplain, list_elem_of_In.
  - exists 1. split; [|done]. by destruct e.
Qed.

(** X3: an expression without a selector, a binding or a callable, lists
    and [Arg]s nested as they may be, evaluates to exactly one
    candidate: itself, with the environment it was given. *)
Theorem plain_evaluates_to_itself (e : Expr Fn) (env : Env) :
  plain e = true → evaluates call e env ([(e, env)], Done).
Proof. intros Hplain. by apply plain_evaluates. Qed.

(** *** More on flatten and the resolver *)

(** X4: the flattening of an expression holds no list; flattening a
    concatenation is concatenating the flattenings, so a list nested in
    a list can be spliced into it without changing the flattening. *)
Theorem flatten_splices :
  (∀ e : Expr Fn, Forall (fun y => is_list y = false) (flatten e)) ∧
  (∀ l1 l2 : list (Expr Fn),
     flatten (PyList (l1 ++ l2))
     = flatten (PyList l1) ++ flatten (PyList l2)) ∧
  (∀ l1 l l2 : list (Expr Fn),
     flatten (PyList (l1 ++ PyList l :: l2))
     = flatten (PyList (l1 ++ l ++ l2))).
Proof.
  split_and!.
  - apply flatten_flat.
  - intros l1 l2. simpl. apply flat_map_app.
  - intros l1 l l2. simpl. by rewrite !flat_map_app.
Qed.

Lemma emit_unmarked (l : list (Expr Fn)) m :
  Forall (fun e => is_marker e = false) l → emit l m = (l, m).
Proof.
  induction 1 as [|e l He _ IH]; [done|].
  rewrite emit_cons. destruct e; try done; simpl; by rewrite IH.
Qed.

Lemma accumulate_unmarked (l : list (Expr Fn)) m :
  Forall (fun e => is_marker e = false) l →
  fold_left accumulate_step l m = m.
Proof.
  intros H. revert m. induction H as [|e l He _ IH]; intros m; [done|].
  cbn [fold_left]. rewrite IH. by destruct e.
Qed.

Lemma interpret_args_unmarked (l : list (Expr Fn)) :
  Forall (fun e => is_marker e = false) l → interpret_args l = l.
Proof.
  intros Hl. rewrite interpret_args_emit. by rewrite emit_unmarked.
Qed.

(** X5: the resolver returns a token list without [Arg] and [Let] as it
    is; hence resolving is idempotent on a token list none of whose
    [Arg]s carries an [Arg] or a [Let] among its values. *)
Theorem interpret_args_idempotent (tokens : list (Expr Fn)) :
  (Forall (fun e => is_marker e = false) tokens →
   interpret_args tokens = tokens) ∧
  ((∀ name values a d,
      Arg name values a d ∈ tokens →
      Forall (fun v => is_marker v = false) values) →
   interpret_args (interpret_args tokens) = interpret_args tokens).
Proof.
  split; [apply interpret_args_unmarked|].
  intros Hvalues. apply interpret_args_unmarked.
  rewrite interpret_args_emit. apply emit_Forall.
  - by apply accumulate_Forall.
  - apply Forall_forall. intros e _. by destruct e.
Qed.

Lemma emit_keeps_tokens (l : list (Expr Fn)) m :
  List.filter (fun e => negb (is_marker e)) l `sublist_of` (emit l m).1.
Proof.
  revert m. induction l as [|e l IH]; intros m; [done|].
  rewrite emit_cons. cbn [fst List.filter].
  destruct e as [| | | | | | |name values append del| | |]; cbn [is_marker negb];
    try (apply (sublist_skip _ _ _), IH).
  - simpl. destruct (m !! name); simpl.
    + apply sublist_cons. by apply sublist_inserts_l.
    + apply IH.
  - simpl. apply IH.
Qed.

(** X6: the resolver neither drops nor reorders the tokens that are not
    [Arg] or [Let]: they are a subsequence of its output. *)
Theorem interpret_args_keeps_tokens (tokens : list (Expr Fn)) :
  List.filter (fun e => negb (is_marker e)) tokens
    `sublist_of` interpret_args tokens.
Proof. rewrite interpret_args_emit. apply emit_keeps_tokens. Qed.

Lemma accumulate_step_named (m : gmap string (list (Expr Fn))) name e :
  arg_named name e = true →
  delete name (accumulate_step m e) = delete name m.
Proof.
  destruct e as [| | | | | | |name' values append del| | |]; try done.
  simpl arg_named. intros Heq. case_bool_decide; [subst name'|done].
  destruct append; [|destruct del].
  - by rewrite accumulate_step_append, delete_insert_eq.
  - by rewrite accumulate_step_delete, delete_delete_eq.
  - by rewrite accumulate_step_replace, delete_insert_eq.
Qed.

Lemma accumulate_step_unnamed (m : gmap string (list (Expr Fn))) name e :
  arg_named name e = false →
  accumulate_step (delete name m) e = delete name (accumulate_step m e).
Proof.
  destruct e as [| | | | | | |name' values append del| | |]; try done.
  simpl arg_named. intros Hne. case_bool_decide as Hne'; [done|]. clear Hne.
  destruct append; [|destruct del].
  - rewrite !accumulate_step_append, lookup_delete_ne by done.
    by rewrite delete_insert_ne.
  - rewrite !accumulate_step_delete. apply delete_delete.
  - rewrite !accumulate_step_replace. by rewrite delete_insert_ne.
Qed.

Lemma accumulate_filter (l : list (Expr Fn)) name m :
  fold_left accumulate_step
    (List.filter (fun e => negb (arg_named name e)) l) (delete name m)
  = delete name (fold_left accumulate_step l m).
Proof.
  revert m. induction l as [|e l IH]; intros m; [done|].
  cbn [List.filter fold_left].
  destruct (arg_named name e) eqn:He; cbn [negb fold_left].
  - by rewrite <- IH, accumulate_step_named.
  - by rewrite <- IH, accumulate_step_unnamed.
Qed.

Lemma interpret_args_absent (tokens : list (Expr Fn)) name :
  accumulate tokens !! name = None →
  interpret_args tokens
  = interpret_args (List.filter (fun e => negb (arg_named name e)) tokens).
Proof.
  intros Hnone. rewrite !interpret_args_emit.
  assert (accumulate (List.filter (fun e => negb (arg_named name e)) tokens)
          = accumulate tokens) as ->.
  { unfold accumulate at 1.
    rewrite <- (delete_empty (M:=gmap string) name).
    rewrite accumulate_filter. by apply delete_id. }
  by rewrite <- emit_absent.
Qed.

(** X7: when the last occurrence of a name is a delete (and not an
    append), the resolver's output is the output for the token list
    without any of the occurrences of the name: the argument is
    erased, and the other tokens are resolved as if it had never been
    there. *)
Theorem deleted_argument_is_erased (before after : list (Expr Fn)) name
    values :
  Forall (fun e => arg_named name e = false) after →
  accumulate (before ++ Arg name values false true :: after) !! name = None ∧
  interpret_args (before ++ Arg name values false true :: after)
  = interpret_args
      (List.filter (fun e => negb (arg_named name e)) (before ++ after)).
Proof.
  intros Hafter.
  assert (accumulate (before ++ Arg name values false true :: after) !! name
          = None) as Hnone.
  { rewrite accumulate_app. cbn [fold_left].
    rewrite fold_accumulate_other by done.
    by rewrite accumulate_step_delete, lookup_delete_eq. }
  split; [done|].
  rewrite (interpret_args_absent _ name Hnone).
  rewrite !List.filter_app. cbn [List.filter arg_named].
  by rewrite bool_decide_true.
Qed.

(** *** Lists, taken apart and put together *)

Lemma list_evaluates_unique l env (g g' : Gen (list (Expr Fn) * Env)) :
  list_evaluates call l env g → list_evaluates call l env g' → g = g'.
Proof.
  intros [n Hn]%list_evaluates_fuel [m Hm]%list_evaluates_fuel.
  rewrite <- (Hn (n `max` m)), <- (Hm (n `max` m)); [done|lia..].
Qed.

Lemma for_items_Done_inv {A B} (body : A → Gen B) (xs : list A)
    (o : Outcome) :
  (for_items xs o body).2 = Done →
  o = Done ∧ ∀ x, x ∈ xs → (body x).2 = Done.
Proof.
  induction xs as [|x xs IH]; simpl.
  - intros ->. split; [done|]. by intros x Hx%elem_of_nil.
  - destruct (body x) as [ys ob] eqn:Hx.
    destruct (for_items xs o body) as [zs oz].
    destruct ob; simpl; try done. intros ->.
    destruct IH as [-> Hxs]; [done|]. split; [done|].
    intros y [->|Hy]%elem_of_cons; [by rewrite Hx|by apply Hxs].
Qed.

Lemma list_evaluates_cons_inv e0 rest env c :
  list_evaluates call (e0 :: rest) env (c, Done) →
  ∃ c0 (cr : Env → list (list (Expr Fn) * Env)),
    evaluates call e0 env (c0, Done) ∧
    (∀ v0 env0, (v0, env0) ∈ c0 →
       list_evaluates call rest env0 (cr env0, Done)) ∧
    c = cross_product c0 cr.
Proof.
  intros Hlist. pose proof Hlist as (n & Hn & _).
  destruct n as [|m]; [done|].
  change (for_each (internal_execute call m e0 env)
            (fun '(new_first, new_first_env) =>
               for_each (internal_execute call m (PyList rest) new_first_env)
                 (fun '(new_rest, new_rest_env) =>
                    match new_rest with
                    | PyList new_rest =>
                        yield (new_first :: new_rest, new_rest_env)
                    | _ => raise (ValueError rest new_rest)
                    end))
          = (c, Done)) in Hn.
  unfold for_each at 1 in Hn.
  pose proof (f_equal snd Hn) as Ho. cbn [snd] in Ho.
  apply for_items_Done_inv in Ho as [Ho0 Hbody].
  destruct m as [|k]; [done|].
  destruct (internal_execute call (S k) e0 env) as [c0 o0] eqn:He0.
  cbn [fst snd] in Ho0, Hbody. subst o0.
  assert (evaluates call e0 env (c0, Done)) as Hev0
    by (exists (S k); by split).
  exists c0, (fun env0 => (execute_list call k rest env0).1).
  assert (∀ v0 env0, (v0, env0) ∈ c0 →
            list_evaluates call rest env0
              ((execute_list call k rest env0).1, Done)) as Hrest.
  { intros v0 env0 Hin. specialize (Hbody _ Hin). cbn beta iota in Hbody.
    unfold for_each in Hbody.
    apply for_items_Done_inv in Hbody as [Hdone _].
    change (internal_execute call (S k) (PyList rest) env0)
      with (for_each (execute_list call k rest env0)
              (fun '(new_expr, new_env) => yield (PyList new_expr, new_env)))
      in Hdone.
    rewrite for_each_yield_pair in Hdone. cbn [snd] in Hdone.
    exists k. split; [|done].
    by destruct (execute_list call k rest env0) as [cr o]; simpl in *; subst. }
  split_and!; [done..|].
  pose proof (list_evaluates_cons e0 rest env c0 Done _ Hev0 Hrest) as Hcons.
  by injection (list_evaluates_unique _ _ _ _ Hlist Hcons).
Qed.

(** X8: a list [e0 :: rest] that returns can only have returned a cross
    product: its first element returned candidates [c0], the rest
    returned under the environment of each of them, and the candidates
    of the list are the pairs made of these. *)
Theorem returned_list_is_cross_product e0 rest env c :
  list_evaluates call (e0 :: rest) env (c, Done) →
  ∃ c0 (cr : Env → list (list (Expr Fn) * Env)),
    evaluates call e0 env (c0, Done) ∧
    (∀ v0 env0, (v0, env0) ∈ c0 →
       list_evaluates call rest env0 (cr env0, Done)) ∧
    c = cross_product c0 cr.
Proof. apply list_evaluates_cons_inv. Qed.

Lemma elem_of_cross_product (c0 : list (Expr Fn * Env))
    (cr : Env → list (list (Expr Fn) * Env)) v0 env0 r env1 :
  (v0, env0) ∈ c0 → (r, env1) ∈ cr env0 →
  (v0 :: r, env1) ∈ cross_product c0 cr.
Proof.
  intros H0 H1. apply list_elem_of_In, in_flat_map.
  exists (v0, env0). split; [by apply list_elem_of_In|].
  apply in_map_iff. exists (r, env1). split; [done|].
  by apply list_elem_of_In.
Qed.

Lemma threaded_product_cons_map (x : Expr Fn) (l : list (list (Expr Fn) * Env))
    (c2 : Env → list (list (Expr Fn) * Env)) :
  threaded_product (map (fun c1 => ([x] ++ c1.1, c1.2)) l) c2
  = map (fun c => ([x] ++ c.1, c.2)) (threaded_product l c2).
Proof.
  unfold threaded_product.
  induction l as [|a l IH]; [done|]. cbn [map flat_map].
  rewrite map_app, <- IH, !map_map. done.
Qed.

Lemma threaded_cross_product (c0 : list (Expr Fn * Env))
    (cr c2 : Env → list (list (Expr Fn) * Env)) :
  cross_product c0 (fun env0 => threaded_product (cr env0) c2)
  = threaded_product (cross_product c0 cr) c2.
Proof.
  unfold cross_product.
  induction c0 as [|x c0 IH]; [done|]. cbn [flat_map].
  rewrite IH. unfold threaded_product at 3. rewrite flat_map_app.
  f_equal. symmetry. apply threaded_product_cons_map.
Qed.

Lemma threaded_nil_map (l : list (list (Expr Fn) * Env)) :
  map (fun c2 => ([] ++ c2.1, c2.2)) l = l.
Proof. induction l as [|[r e] l IH]; simpl; [done|]. by f_equal. Qed.

Lemma list_evaluates_app (l1 l2 : list (Expr Fn)) env c1
    (c2 : Env → list (list (Expr Fn) * Env)) :
  list_evaluates call l1 env (c1, Done) →
  (∀ r env1, (r, env1) ∈ c1 →
     list_evaluates call l2 env1 (c2 env1, Done)) →
  list_evaluates call (l1 ++ l2) env (threaded_product c1 c2, Done).
Proof.
  revert env c1. induction l1 as [|e0 l1 IH]; intros env c1 H1 H2.
  - pose proof (list_evaluates_unique _ _ _ _ H1 (list_evaluates_nil env))
      as [= ->].
    unfold threaded_product. cbn [flat_map fst snd].
    rewrite app_nil_r, threaded_nil_map. by apply (H2 []); left.
  - apply list_evaluates_cons_inv in H1 as (c0 & cr & He0 & Hrest & ->).
    rewrite <- threaded_cross_product. simpl.
    apply list_evaluates_cons; [done|].
    intros v0 env0 Hin0. apply IH; [by eapply Hrest|].
    intros r env1 Hin1. apply (H2 (v0 :: r)).
    by eapply elem_of_cross_product.
Qed.

(** X9: evaluation distributes over concatenation: when [l1] returns
    the candidates [c1] and [l2] returns under the environment of each
    of them, [l1 ++ l2] returns, in order, every candidate of [l1]
    extended by every candidate [l2] has under its environment. *)
Theorem concatenation_is_threaded_product (l1 l2 : list (Expr Fn)) env c1
    (c2 : Env → list (list (Expr Fn) * Env)) :
  list_evaluates call l1 env (c1, Done) →
  (∀ r env1, (r, env1) ∈ c1 →
     list_evaluates call l2 env1 (c2 env1, Done)) →
  list_evaluates call (l1 ++ l2) env (threaded_product c1 c2, Done).
Proof. apply list_evaluates_app. Qed.

Lemma threaded_product_single (c : list (list (Expr Fn) * Env))
    (x : list (Expr Fn)) :
  threaded_product c (fun env1 => [(x, env1)])
  = map (fun p => (p.1 ++ x, p.2)) c.
Proof.
  unfold threaded_product.
  induction c as [|p c IH]; simpl in *; [done|]. by f_equal.
Qed.

Lemma strings_evaluate (args : list string) (env : Env) :
  list_evaluates call (map PyStr args) env ([(map PyStr args, env)], Done).
Proof.
  apply list_evaluates_itself. apply Forall_forall.
  intros x [s [-> _]]%list_elem_of_fmap env'. by apply plain_evaluates.
Qed.

(** X10: [execute] rejects an expression that is not a list with the
    error of [NotAList] before anything is yielded; for a list that
    returns it yields the candidates of the list, each followed by the
    extra command-line arguments, with enough fuel. *)
Theorem execute_appends_extra_args (extra_args : list string) :
  (∀ fuel e env,
     is_list e = false →
     execute call (map PyStr extra_args) fuel e env
     = ([], Raised (NotAList e))) ∧
  (∀ l env c,
     list_evaluates call l env (c, Done) →
     ∃ n, ∀ fuel, n ≤ fuel →
       execute call (map PyStr extra_args) fuel (PyList l) env
       = (map (fun p => (PyList (p.1 ++ map PyStr extra_args), p.2)) c,
          Done)).
Proof.
  split.
  - intros fuel e env He. by destruct e.
  - intros l env c Hl.
    pose proof (list_evaluates_app l (map PyStr extra_args) env c
                  (fun env1 => [(map PyStr extra_args, env1)]) Hl) as Happ.
    destruct (evaluates_fuel _ _ _
                (evaluates_list _ _ _
                   (Happ (fun r env1 _ => strings_evaluate extra_args env1))))
      as [n Hn].
    exists n. intros fuel Hfuel. unfold execute.
    rewrite (Hn fuel Hfuel). cbn [fst snd].
    by rewrite threaded_product_single, map_map.
Qed.

(** *** Selecting *)

Lemma for_items_single {A B} (body : A → Gen B) (x : A) :
  for_items [x] Done body = body x.
Proof.
  simpl. destruct (body x) as [ys o]. destruct o; [|done..].
  by rewrite app_nil_r.
Qed.

Lemma evaluates_selector_single which choices env cs w key e
    (g : Gen (Expr Fn * Env)) :
  canonical_choices choices = Some cs →
  resolve_which env which = inr w →
  canonical_which cs w = [key] →
  hashable key = true →
  getitem cs key = Some e →
  evaluates call e env g →
  evaluates call (Selector which choices) env g.
Proof.
  intros Hcs Hw Hkeys Hhash Hget (n & Hn & Hstop).
  exists (S n). split; [|done]. simpl.
  rewrite Hcs, Hw, Hkeys, for_items_single, Hhash, Hget. simpl.
  by rewrite for_each_reyield.
Qed.

Lemma standardize_choices_list (choices : list (Expr Fn)) transform :
  single_dict choices = false →
  standardize_choices choices transform = PyList (map transform choices).
Proof. by destruct choices as [|[] [|]]. Qed.

(** X11: a selector whose [which] stands for one key that is in
    [choices] evaluates as the choice of that key does, candidates and
    outcome alike; so [sel(i, c0, ..., cn)] evaluates as [ci], and
    [sel("@v", {...})] as the choice named by the value of [@v]. *)
Theorem selector_single_key :
  (∀ which choices env cs w key e (g : Gen (Expr Fn * Env)),
     canonical_choices choices = Some cs →
     resolve_which env which = inr w →
     canonical_which cs w = [key] →
     hashable key = true →
     getitem cs key = Some e →
     evaluates call e env g →
     evaluates call (Selector which choices) env g) ∧
  (∀ (i : nat) choices e env (g : Gen (Expr Fn * Env)),
     single_dict choices = false →
     choices !! i = Some e →
     evaluates call e env g →
     evaluates call (sel (PyInt (Z.of_nat i)) choices) env g) ∧
  (∀ v k d e (env : Env) (g : Gen (Expr Fn * Env)),
     String.prefix "@" v = true →
     env !! v = Some (PyStr k) →
     getitem (map (fun kv => (KStr kv.1, kv.2)) d) (PyStr k) = Some e →
     evaluates call e env g →
     evaluates call (sel (PyStr v) [PyDict d]) env g).
Proof.
  split_and!.
  - apply evaluates_selector_single.
  - intros i choices e env g Hsingle Hi He. unfold sel.
    rewrite standardize_choices_list by done. rewrite map_id.
    eapply (evaluates_selector_single _ _ _ _ _ (PyInt (Z.of_nat i)));
      try done.
    by rewrite getitem_zip_range.
  - intros v k d e env g Hv Hk Hget He. unfold sel. simpl.
    eapply (evaluates_selector_single _ _ _ _ (PyStr k) (PyStr k));
      try done.
    simpl. rewrite Hv. unfold lookup_env. by rewrite Hk.
Qed.

Lemma range_keys (choices : list (Expr Fn)) (k : nat) :
  Forall2
    (fun (key : Expr Fn) c =>
       ∃ i : nat, key = PyInt (Z.of_nat i) ∧
                  choices !! (i - k)%nat = Some c ∧ k ≤ i)
    (map PyInt (map Z.of_nat (seq k (length choices)))) choices.
Proof.
  revert k. induction choices as [|c choices IH]; intros k; simpl.
  - constructor.
  - constructor.
    + exists k. by rewrite Nat.sub_diag.
    + eapply Forall2_impl; [apply (IH (S k))|].
      intros key c' (i & -> & Hi & Hle).
      exists i. split_and!; [done| |lia].
      by replace (i - k)%nat with (S (i - S k)) by lia.
Qed.

Lemma evaluates_selector_all (choices : list (Expr Fn)) (env : Env) :
  (∀ c, c ∈ choices → evaluates call c env ([(c, env)], Done)) →
  evaluates call (Selector PyNone (PyList choices)) env
    (map (fun c => (c, env)) choices, Done).
Proof.
  intros Hc.
  assert (Forall2 (selects call (zip_range choices) env)
            (canonical_which (zip_range choices) PyNone)
            (map (fun c => [(c, env)]) choices)) as Hsel.
  { simpl. rewrite keys_zip_range. unfold range.
    apply Forall2_fmap_r.
    eapply Forall2_impl; [apply (range_keys choices 0)|].
    intros key c (i & -> & Hi & _). rewrite Nat.sub_0_r in Hi.
    exists c. split_and!; [done|by rewrite getitem_zip_range|].
    apply Hc. by eapply list_elem_of_lookup_2. }
  apply selects_fuel in Hsel as [n Hn].
  exists (S n). split; [|done]. simpl.
  rewrite (for_items_all_done _ _ (map (fun c => [(c, env)]) choices)).
  - f_equal. clear. induction choices as [|c l IH]; simpl; [done|].
    by f_equal.
  - apply selector_loop, Hn. lia.
Qed.

(** X12: [selarg(None, name, a1, ..., an)], the [ai] without selector,
    binding or callable, has one candidate for each [ai], in order: the
    [Arg] of [name] with the value [ai].  Called with a single dict,
    [selarg] hands the dict to the selector as it is, as [sel] does: the
    values of the dict are not made arguments of [name]. *)
Theorem selarg_candidates :
  (∀ name (choices : list (Expr Fn)) (env : Env),
     single_dict choices = false →
     forallb plain choices = true →
     evaluates call (selarg PyNone name choices) env
       (map (fun c => (arg name [c] false false, env)) choices, Done)) ∧
  (∀ which name (d : list (string * Expr Fn)),
     selarg which name [PyDict d] = sel which [PyDict d]).
Proof.
  split; [|done].
  intros name choices env Hsingle Hplain. unfold selarg.
  rewrite standardize_choices_list by done.
  rewrite <- (map_map (fun c => arg name [c] false false)
                (fun c => (c, env))).
  apply evaluates_selector_all.
  intros c [c' [-> Hc']]%list_elem_of_fmap.
  apply plain_evaluates. simpl. rewrite andb_true_r.
  rewrite forallb_forall in Hplain. by apply Hplain, list_elem_of_In.
Qed.

Lemma threaded_product_empty (c1 : list (list (Expr Fn) * Env)) :
  threaded_product c1 (fun _ => []) = [].
Proof. unfold threaded_product. by induction c1. Qed.

(** X13: a selector with no key to select has no candidate, and a list
    with an element that has no candidate, under any environment the
    elements before it produce, has no candidate either, whatever
    follows the element: no command comes out of it. *)
Theorem empty_selection_empties_the_list :
  (∀ which choices (env : Env) cs w,
     canonical_choices choices = Some cs →
     resolve_which env which = inr w →
     canonical_which cs w = [] →
     evaluates call (Selector which choices) env ([], Done)) ∧
  (∀ (l1 : list (Expr Fn)) e rest env c1,
     list_evaluates call l1 env (c1, Done) →
     (∀ r env1, (r, env1) ∈ c1 → evaluates call e env1 ([], Done)) →
     list_evaluates call (l1 ++ e :: rest) env ([], Done)).
Proof.
  split.
  - intros which choices env cs w Hcs Hw Hkeys.
    exists 1. split; [|done]. simpl. by rewrite Hcs, Hw, Hkeys.
  - intros l1 e rest env c1 Hl1 He.
    rewrite <- (threaded_product_empty c1).
    apply list_evaluates_app; [done|].
    intros r env1 Hin.
    apply (list_evaluates_cons e rest env1 [] Done (fun _ => []));
      [by eapply He|].
    by intros v0 env0 Hnil%elem_of_nil.
Qed.

(** *** Bindings as defaults, callables *)

Lemma evaluates_let var value if_undefined (env : Env) c o :
  if_undefined = false ∨ env !! var = None →
  evaluates call value env (c, o) →
  evaluates call (Let var value if_undefined) env
    (map (fun p => (Let var value if_undefined, <[var := p.1]> p.2)) c, o).
Proof.
  intros Hcond (n & Hn & Hstop).
  exists (S n). split; [|done]. simpl.
  assert (negb if_undefined || negb (bool_decide (is_Some (env !! var)))
          = true) as ->.
  { destruct Hcond as [->|Hnone]; [done|].
    rewrite bool_decide_false, orb_true_r; [done|].
    rewrite Hnone. by intros []. }
  rewrite Hn. unfold for_each; simpl.
  rewrite <- (for_items_yield
                (fun p => (Let var value if_undefined, <[var := p.1]> p.2))).
  apply for_items_ext. intros [v env'] _. simpl.
  by rewrite dict_items_snoc.
Qed.

Lemma cross_product_single (x : Expr Fn) (env0 : Env)
    (c : list (list (Expr Fn) * Env)) :
  cross_product [(x, env0)] (fun _ => c)
  = map (fun p => (x :: p.1, p.2)) c.
Proof. unfold cross_product. simpl. by rewrite app_nil_r. Qed.

(** X14: [let_if_undefined(var, d)] at the head of a list is a
    default: when [var] is bound the rest of the list is evaluated
    under the environment as it is, and when it is not, and [d] has no
    selector, binding or callable, under the environment with [var]
    bound to [d]; each candidate of the rest is a candidate of the
    list, behind the binding. *)
Theorem let_if_undefined_is_a_default var d (rest : list (Expr Fn))
    (env : Env) c :
  (is_Some (env !! var) →
   list_evaluates call rest env (c, Done) →
   list_evaluates call (let_if_undefined var d :: rest) env
     (map (fun p => (let_if_undefined var d :: p.1, p.2)) c, Done)) ∧
  (env !! var = None →
   plain d = true →
   list_evaluates call rest (<[var := d]> env) (c, Done) →
   list_evaluates call (let_if_undefined var d :: rest) env
     (map (fun p => (let_if_undefined var d :: p.1, p.2)) c, Done)).
Proof.
  split.
  - intros Hbound Hrest.
    rewrite <- (cross_product_single (let_if_undefined var d) env c).
    apply list_evaluates_cons.
    + exists 1. split; [|done]. simpl. by rewrite bool_decide_true.
    + by intros v0 env0 [[= -> ->]|Hnil%elem_of_nil]%elem_of_cons.
  - intros Hnone Hplain Hrest.
    rewrite <- (cross_product_single (let_if_undefined var d)
                  (<[var := d]> env) c).
    apply list_evaluates_cons.
    + apply (evaluates_let var d true env [(d, env)] Done); [by right|].
      by apply plain_evaluates.
    + by intros v0 env0 [[= -> ->]|Hnil%elem_of_nil]%elem_of_cons.
Qed.

(** X15: a callable is called with the environment and the expression
    it returns is evaluated in its place, under the same environment,
    candidates and outcome alike; an exception of the callable ends
    the evaluation before anything is yielded. *)
Theorem callable_is_evaluated_in_place (f : Fn) (env : Env) :
  (∀ e (g : Gen (Expr Fn * Env)),
     call f env = inr e →
     evaluates call e env g →
     evaluates call (Callable f) env g) ∧
  (∀ x, call f env = inl x →
     evaluates call (Callable f) env ([], Raised (Uncaught x))).
Proof.
  split.
  - intros e g Hf (n & Hn & Hstop). exists (S n). split; [|done].
    simpl. rewrite Hf, Hn. apply for_each_reyield.
  - intros x Hf. exists 1. split; [|done]. simpl. by rewrite Hf.
Qed.

Lemma to_tokens_nested (a b : list (Expr Fn)) :
  to_tokens (PyList (PyList a :: b)) = to_tokens (PyList (a ++ b)).
Proof. unfold to_tokens. simpl. by rewrite flat_map_app. Qed.

Lemma nested_tokens (c1 : list (list (Expr Fn) * Env))
    (c2 : Env → list (list (Expr Fn) * Env)) :
  map (fun c => (to_tokens (PyList c.1), c.2))
    (cross_product (map (fun c => (PyList c.1, c.2)) c1) c2)
  = map (fun c => (to_tokens (PyList c.1), c.2)) (threaded_product c1 c2).
Proof.
  unfold cross_product, threaded_product.
  induction c1 as [|p c1 IH]; [done|]. cbn [map flat_map].
  rewrite !map_app, IH, !map_map. f_equal.
  apply map_ext. intros q. cbn [fst snd app].
  by rewrite to_tokens_nested.
Qed.

(** X16: nesting is cosmetic.  When [l1] returns and [l2] returns under
    the environment of each of its candidates, [[l1, *l2]] and
    [l1 + l2] both return, with as many candidates, in the same order,
    with the same environments and the same tokens after [flatten]
    and [interpret_args]. *)
Theorem nesting_is_cosmetic (l1 l2 : list (Expr Fn)) env c1
    (c2 : Env → list (list (Expr Fn) * Env)) :
  list_evaluates call l1 env (c1, Done) →
  (∀ r env1, (r, env1) ∈ c1 →
     list_evaluates call l2 env1 (c2 env1, Done)) →
  ∃ nested flat,
    list_evaluates call (PyList l1 :: l2) env (nested, Done) ∧
    list_evaluates call (l1 ++ l2) env (flat, Done) ∧
    map (fun c => (to_tokens (PyList c.1), c.2)) nested
    = map (fun c => (to_tokens (PyList c.1), c.2)) flat.
Proof.
  intros H1 H2.
  exists (cross_product (map (fun c => (PyList c.1, c.2)) c1) c2),
         (threaded_product c1 c2).
  split_and!.
  - apply list_evaluates_cons.
    + by apply (evaluates_list l1 env (c1, Done)).
    + intros v0 env0 [[r env1] [[= -> ->] Hin]]%list_elem_of_fmap.
      by eapply H2.
  - by apply list_evaluates_app.
  - apply nested_tokens.
Qed.

(** *** Arguments that occur once *)

Lemma elem_of_arg_names (l : list (Expr Fn)) name values append delete :
  Arg name values append delete ∈ l → name ∈ arg_names l.
Proof.
  intros Hin. apply list_elem_of_In, in_flat_map.
  exists (Arg name values append delete).
  split; [by apply list_elem_of_In|]. by left.
Qed.

Lemma not_arg_named (l : list (Expr Fn)) name :
  name ∉ arg_names l → Forall (fun e => arg_named name e = false) l.
Proof.
  intros Hnot. apply Forall_forall. intros e He.
  destruct e as [| | | | | | |name' values append del| | |]; try done.
  simpl. case_bool_decide; [subst|done].
  destruct Hnot. by eapply elem_of_arg_names.
Qed.

Lemma accumulate_alone (tokens : list (Expr Fn)) name values append delete :
  NoDup (arg_names tokens) →
  Arg name values append delete ∈ tokens →
  accumulate tokens !! name
  = if append || negb delete then Some values else None.
Proof.
  intros Hnodup (before & after & ->)%list_elem_of_split.
  unfold arg_names in Hnodup. rewrite flat_map_app in Hnodup.
  cbn [flat_map app] in Hnodup.
  apply NoDup_app in Hnodup as (_ & Hbefore & [Hafter _]%NoDup_cons).
  assert (name ∉ arg_names before) as Hb.
  { intros Hin. apply (Hbefore name Hin). by left. }
  apply not_arg_named in Hb. apply not_arg_named in Hafter.
  rewrite accumulate_app. cbn [fold_left].
  rewrite fold_accumulate_other by done.
  assert (accumulate before !! name = None) as Hnone.
  { unfold accumulate. by rewrite fold_accumulate_other. }
  destruct append; [|destruct delete]; cbn [orb negb].
  - by rewrite accumulate_step_append, lookup_insert_eq, Hnone.
  - by rewrite accumulate_step_delete, lookup_delete_eq.
  - by rewrite accumulate_step_replace, lookup_insert_eq.
Qed.

Lemma emit_alone (l : list (Expr Fn)) m :
  NoDup (arg_names l) →
  (∀ name values append delete,
     Arg name values append delete ∈ l →
     m !! name = if append || negb delete then Some values else None) →
  (emit l m).1 = flat_map render_alone l.
Proof.
  revert m. induction l as [|e l IH]; intros m Hnodup Hm; [done|].
  rewrite emit_cons. cbn [fst flat_map].
  assert (∀ name values append delete,
            Arg name values append delete ∈ l →
            m !! name = if append || negb delete then Some values else None)
    as Hl by (intros; apply Hm; by right).
  destruct e as [| | | | | | |name values append del| | |];
    try (simpl; f_equal; by apply IH).
  cbn [arg_names flat_map app] in Hnodup.
  apply NoDup_cons in Hnodup as [Hname Hnodup].
  simpl. rewrite (Hm name values append del) by left.
  destruct (append || negb del); simpl.
  - do 2 f_equal. apply IH; [done|].
    intros name' values' append' del' Hin.
    rewrite lookup_delete_ne; [by apply Hl|].
    intros ->. apply Hname. by eapply elem_of_arg_names.
  - by apply IH.
Qed.

(** X21: when no two [Arg]s of a token list have the same name, the
    resolver renders every token where it stands: an [Arg] becomes its
    flag and its values, or nothing when it is a delete and not an
    append, a [Let] becomes nothing, and any other token stays. *)
Theorem distinct_arguments_render_in_place (tokens : list (Expr Fn)) :
  NoDup (arg_names tokens) →
  interpret_args tokens = flat_map render_alone tokens.
Proof.
  intros Hnodup. rewrite interpret_args_emit.
  apply emit_alone; [done|].
  intros name values append delete Hin. by apply accumulate_alone.
Qed.

Lemma cross_product_length (c0 : list (Expr Fn * Env))
    (cr : Env → list (list (Expr Fn) * Env)) (n : nat) :
  (∀ v0 env0, (v0, env0) ∈ c0 → length (cr env0) = n) →
  length (cross_product c0 cr) = (length c0 * n)%nat.
Proof.
  unfold cross_product. induction c0 as [|[v0 env0] c0 IH]; intros Hn;
    [done|].
  cbn [flat_map length fst snd]. rewrite length_app, length_map.
  rewrite (Hn v0 env0) by left. rewrite IH; [simpl; lia|].
  intros v env' Hin. eapply Hn. by right.
Qed.

(** X22: the number of candidates multiplies: when the first element of
    a list returns [m] candidates and the rest returns [n] candidates
    under the environment of each of them, the list returns [m * n]
    candidates. *)
Theorem candidates_multiply e0 rest env c0
    (cr : Env → list (list (Expr Fn) * Env)) (n : nat) :
  evaluates call e0 env (c0, Done) →
  (∀ v0 env0, (v0, env0) ∈ c0 →
     list_evaluates call rest env0 (cr env0, Done) ∧ length (cr env0) = n) →
  ∃ c, list_evaluates call (e0 :: rest) env (c, Done) ∧
       length c = (length c0 * n)%nat.
Proof.
  intros He0 Hrest. exists (cross_product c0 cr). split.
  - apply list_evaluates_cons; [done|].
    intros v0 env0 Hin. by apply (Hrest v0 env0).
  - apply cross_product_length. intros v0 env0 Hin.
    by apply (Hrest v0 env0).
Qed.

(** *** Exceptions *)

(** The inner loop of [execute_list] over the candidates of the rest. *)
Lemma rest_loop (v0 : Expr Fn) (rest : list (Expr Fn))
    (cs : list (list (Expr Fn) * Env)) (o : Outcome) :
  for_items (map (fun c1 => (PyList c1.1, c1.2)) cs) o
    (fun '(new_rest, new_rest_env) =>
       match new_rest with
       | PyList new_rest => yield (v0 :: new_rest, new_rest_env)
       | _ => raise (ValueError rest new_rest)
       end)
  = ((map (fun c1 => (v0 :: c1.1, c1.2)) cs, o) : Gen (list (Expr Fn) * Env)).
Proof.
  induction cs as [|c1 cs IH]; simpl; [done|]. by rewrite IH.
Qed.

(** When the rest of a list stops with an exception under the
    environment of a candidate of the first element, the list stops
    there: it has yielded the cross product for the candidates before,
    and what the rest yielded for this one. *)
Lemma list_evaluates_rest_raises e0 rest env c1 v env1 c2 o cp x
    (cr : Env → list (list (Expr Fn) * Env)) :
  evaluates call e0 env (c1 ++ (v, env1) :: c2, o) →
  (∀ v0 env0, (v0, env0) ∈ c1 →
     list_evaluates call rest env0 (cr env0, Done)) →
  list_evaluates call rest env1 (cp, Raised x) →
  list_evaluates call (e0 :: rest) env
    (cross_product c1 cr ++ map (fun c => (v :: c.1, c.2)) cp, Raised x).
Proof.
  intros He0 Hrest Hraise.
  apply evaluates_fuel in He0 as [n0 Hn0].
  destruct (fuel_for_all
              (fun m c => internal_execute call m (PyList rest) c.2
                          = (map (fun c1 => (PyList c1.1, c1.2)) (cr c.2),
                             Done))
              c1) as [n1 Hn1].
  { intros [v0 env0] Hin.
    apply Hrest, evaluates_list, evaluates_fuel in Hin. exact Hin. }
  apply evaluates_list, evaluates_fuel in Hraise as [n2 Hn2].
  exists (S ((n0 `max` n1) `max` n2)). split; [|done]. simpl.
  rewrite Hn0 by lia. unfold for_each at 1; simpl.
  unfold cross_product. rewrite flat_map_concat_map.
  apply for_items_stop; [| |done].
  - apply Forall2_fmap_r, Forall_Forall2_diag, Forall_forall.
    intros [v0 env0] Hin.
    rewrite (Hn1 _ Hin) by lia. unfold for_each; simpl.
    apply rest_loop.
  - rewrite Hn2 by lia. unfold for_each; simpl. apply rest_loop.
Qed.

Lemma selector_branch_raises which choices env cs w ks1 key ks2 cands
    choice ys x :
  canonical_choices choices = Some cs →
  resolve_which env which = inr w →
  canonical_which cs w = ks1 ++ key :: ks2 →
  Forall2 (selects call cs env) ks1 cands →
  hashable key = true →
  getitem cs key = Some choice →
  evaluates call choice env (ys, Raised x) →
  evaluates call (Selector which choices) env (concat cands ++ ys, Raised x).
Proof.
  intros Hcs Hw Hks [n Hn]%selects_fuel Hhash Hget [k Hk]%evaluates_fuel.
  exists (S (n `max` k)). split; [|done]. simpl. rewrite Hcs, Hw, Hks.
  apply for_items_stop; [| |done].
  - apply selector_loop, Hn. lia.
  - rewrite Hhash, Hget. simpl. rewrite Hk by lia. apply for_each_reyield.
Qed.

Lemma callable_raises (f : Fn) (env : Env) body (g : Gen (Expr Fn * Env)) :
  call f env = inr body →
  evaluates call body env g →
  evaluates call (Callable f) env g.
Proof.
  intros Hf (n & Hn & Hstop). exists (S n). split; [|done].
  simpl. rewrite Hf, Hn. apply for_each_reyield.
Qed.

(** X24: an exception ends the whole enumeration, wherever it is
    raised.  In a list, an exception of the first element ends the list
    after the cross product of the candidates yielded until then, and an
    exception of the rest of the list, under the environment of some
    candidate of the first element, ends the list there: the candidates
    of the first element after that one are not used.  A list, an [Arg],
    a [Let], a callable's expression and the branch of a selector pass
    the exception of their part on, after the candidates the part
    yielded before it; [execute] does the same for the root list. *)
Theorem exception_aborts_enumeration :
  (∀ e0 rest env c0 x (cr : Env → list (list (Expr Fn) * Env)),
     evaluates call e0 env (c0, Raised x) →
     (∀ v0 env0, (v0, env0) ∈ c0 →
        list_evaluates call rest env0 (cr env0, Done)) →
     list_evaluates call (e0 :: rest) env (cross_product c0 cr, Raised x)) ∧
  (∀ e0 rest env c1 v env1 c2 o cp x
     (cr : Env → list (list (Expr Fn) * Env)),
     evaluates call e0 env (c1 ++ (v, env1) :: c2, o) →
     (∀ v0 env0, (v0, env0) ∈ c1 →
        list_evaluates call rest env0 (cr env0, Done)) →
     list_evaluates call rest env1 (cp, Raised x) →
     list_evaluates call (e0 :: rest) env
       (cross_product c1 cr ++ map (fun c => (v :: c.1, c.2)) cp,
        Raised x)) ∧
  (∀ l env c x,
     list_evaluates call l env (c, Raised x) →
     evaluates call (PyList l) env
       (map (fun c => (PyList c.1, c.2)) c, Raised x)) ∧
  (∀ name values append delete env c x,
     list_evaluates call values env (c, Raised x) →
     evaluates call (Arg name values append delete) env
       (map (fun c => (Arg name c.1 append delete, c.2)) c, Raised x)) ∧
  (∀ which choices env cs w ks1 key ks2 cands choice ys x,
     canonical_choices choices = Some cs →
     resolve_which env which = inr w →
     canonical_which cs w = ks1 ++ key :: ks2 →
     Forall2 (selects call cs env) ks1 cands →
     hashable key = true →
     getitem cs key = Some choice →
     evaluates call choice env (ys, Raised x) →
     evaluates call (Selector which choices) env
       (concat cands ++ ys, Raised x)) ∧
  (∀ var value if_undefined (env : Env) c x,
     if_undefined = false ∨ env !! var = None →
     evaluates call value env (c, Raised x) →
     evaluates call (Let var value if_undefined) env
       (map (fun p => (Let var value if_undefined, <[var := p.1]> p.2)) c,
        Raised x)) ∧
  (∀ f (env : Env) body c x,
     call f env = inr body →
     evaluates call body env (c, Raised x) →
     evaluates call (Callable f) env (c, Raised x)) ∧
  (∀ (extra_args : list (Expr Fn)) l env c x,
     list_evaluates call (l ++ extra_args) env (c, Raised x) →
     ∃ n, ∀ m, n ≤ m →
       execute call extra_args m (PyList l) env
       = (map (fun c => (PyList c.1, c.2)) c, Raised x)).
Proof.
  split_and!.
  - intros e0 rest env c0 x cr. apply list_evaluates_cons.
  - intros e0 rest env c1 v env1 c2 o cp x cr.
    apply list_evaluates_rest_raises.
  - intros l env c x Hl. apply (evaluates_list _ _ _ Hl).
  - intros name values append delete env c x Hl.
    apply (evaluates_arg _ _ _ _ _ _ Hl).
  - intros which choices env cs w ks1 key ks2 cands choice ys x.
    apply selector_branch_raises.
  - intros var value if_undefined env c x. apply evaluates_let.
  - intros f env body c x. apply callable_raises.
  - intros extra_args l env c x Hl.
    apply evaluates_list, evaluates_fuel in Hl. exact Hl.
Qed.

End Properties.

(** ** Properties of the combiner *)

Section RunnerProperties.

Context {Fn FnExn World : Type}.
Variable call : Fn → gmap string (Expr Fn) → FnExn + Expr Fn.
Variable fullmatch : string → option (string * string).
Variable json_loads : string → option (Expr Fn).
Variable str : Expr Fn → string.
Variable quote : string → string.
Variable system : World → string → Z * World.
Variable user_error : FnExn → bool.

Local Abbreviation init_step := (init_step fullmatch json_loads).
Local Abbreviation init := (init fullmatch json_loads).
Local Abbreviation run_loop := (run_loop str quote system user_error).
Local Abbreviation ending := (ending (Fn:=Fn) user_error).
Local Abbreviation commands_of := (commands_of (Fn:=Fn) str quote).

Lemma init_extra_args (args : list string) (self : ArgCombiner Fn) :
  extra_args (fold_left init_step args self)
  = extra_args self ++ List.filter (is_extra_arg fullmatch) args.
Proof.
  revert self. induction args as [|arg args IH]; intros self; simpl.
  - by rewrite app_nil_r.
  - rewrite IH. unfold init_step, is_extra_arg.
    destruct (String.eqb arg "-n"); simpl; [done|].
    destruct (fullmatch arg) as [[var value]|]; simpl; [done|].
    by rewrite <- (assoc_L (++)).
Qed.

Lemma init_pretend (args : list string) (self : ArgCombiner Fn) :
  pretend (fold_left init_step args self)
  = pretend self || existsb (fun arg => String.eqb arg "-n") args.
Proof.
  revert self. induction args as [|arg args IH]; intros self; simpl.
  - by rewrite orb_false_r.
  - rewrite IH. unfold init_step.
    destruct (String.eqb arg "-n"); simpl; [by rewrite orb_true_r|].
    by destruct (fullmatch arg) as [[var value]|].
Qed.

Lemma init_env_other (args : list string) (self : ArgCombiner Fn) var :
  Forall (fun arg => assigns fullmatch var arg = false) args →
  init_env (fold_left init_step args self) !! var = init_env self !! var.
Proof.
  intros H. revert self. induction H as [|arg args Harg _ IH]; intros self;
    simpl; [done|].
  rewrite IH. unfold init_step. unfold assigns in Harg.
  destruct (String.eqb arg "-n"); simpl in *; [done|].
  destruct (fullmatch arg) as [[var' value]|]; simpl; [|done].
  case_bool_decide; [done|]. by rewrite lookup_insert_ne.
Qed.

(** X17: the constructor keeps, in order, the arguments that are
    neither [-n] nor an assignment [@var=value] as extra arguments;
    [pretend] is on when it was asked for or [-n] is among the
    arguments; the last assignment to a variable wins, its value read
    as JSON when it is JSON and as the string itself when it is not;
    and a variable that is not assigned to is not in the initial
    environment. *)
Theorem init_arguments (pretend0 : bool) :
  (∀ args, extra_args (init args pretend0)
           = List.filter (is_extra_arg fullmatch) args) ∧
  (∀ args, pretend (init args pretend0)
           = pretend0 || existsb (fun arg => String.eqb arg "-n") args) ∧
  (∀ before arg after var value,
     String.eqb arg "-n" = false →
     fullmatch arg = Some (var, value) →
     Forall (fun a => assigns fullmatch var a = false) after →
     init_env (init (before ++ arg :: after) pretend0) !! var
     = Some (match json_loads value with
             | Some v => v
             | None => PyStr value
             end)) ∧
  (∀ args var,
     Forall (fun a => assigns fullmatch var a = false) args →
     init_env (init args pretend0) !! var = None).
Proof.
  split_and!.
  - intros args. unfold init. by rewrite init_extra_args.
  - intros args. unfold init. by rewrite init_pretend.
  - intros before arg after var value Hn Hmatch Hafter. unfold init.
    rewrite fold_left_app. cbn [fold_left].
    rewrite init_env_other by done.
    unfold init_step at 1. rewrite Hn, Hmatch. simpl.
    by rewrite lookup_insert_eq.
  - intros args var Hargs. unfold init. by rewrite init_env_other.
Qed.

Lemma run_loop_pretend candidates o (w : World) :
  run_loop true candidates o w
  = (map Stdout (commands_of candidates) ++ (ending o).1, (ending o).2, w).
Proof.
  induction candidates as [|[new_expr new_env] candidates IH]; simpl.
  - destruct o as [|e|]; simpl; [done| |done]. by destruct (caught _ e).
  - by rewrite IH.
Qed.

(** X18: in pretend mode [run] executes nothing: the world is as it
    was, and every command is printed, in the order of the candidates;
    when the evaluation ends in an [ArgcombException], that is after
    the commands of the candidates yielded before it, followed by the
    message on the error stream and exit status 1.  [-n] among the
    arguments of the module's [run] is enough. *)
Theorem run_pretend_executes_nothing :
  (∀ (self : ArgCombiner Fn) fuel expr (w : World),
     pretend self = true →
     ArgCombiner_run call str quote system user_error self fuel expr w
     = (let g := execute call (map PyStr (extra_args self)) fuel expr
                   (init_env self) in
        (map Stdout (commands_of g.1) ++ (ending g.2).1, (ending g.2).2, w))) ∧
  (∀ args fuel expr (w : World),
     existsb (fun arg => String.eqb arg "-n") args = true →
     ∃ commands effects status,
       run call fullmatch json_loads str quote system user_error
         args fuel expr w
       = (map Stdout commands ++ effects, status, w) ∧
       (effects = [] ∨ ∃ e, effects = [Stderr e] ∧ status = Exit 1)).
Proof.
  split.
  - intros self fuel expr w Hpretend. unfold ArgCombiner_run.
    rewrite Hpretend. apply run_loop_pretend.
  - intros args fuel expr w Hn. unfold run, ArgCombiner_run.
    assert (pretend (init args false) = true) as ->.
    { unfold init. by rewrite init_pretend. }
    rewrite run_loop_pretend. eexists _, _, _. split; [done|].
    destruct (execute _ _ _ _ _).2 as [|e|]; simpl; [by left| |by left].
    destruct (caught _ e); [right; by exists e|by left].
Qed.

Lemma run_loop_succeeding candidates o (w : World) :
  Forall (fun raw => Z.shiftr raw 8 = 0%Z)
    (system_all system w (commands_of candidates)).1 →
  run_loop false candidates o w
  = (map System (commands_of candidates) ++ (ending o).1, (ending o).2,
     (system_all system w (commands_of candidates)).2).
Proof.
  revert w. induction candidates as [|[new_expr new_env] candidates IH];
    intros w; simpl.
  - intros _. destruct o as [|e|]; simpl; [done| |done].
    by destruct (caught _ e).
  - destruct (system w _) as [raw w1] eqn:Hsys.
    specialize (IH w1).
    destruct (system_all system w1 _) as [raws w2] eqn:Hall.
    simpl in *. intros [Hraw Hraws]%Forall_cons.
    rewrite Hraw. simpl. by rewrite IH.
Qed.

(** X19: outside pretend mode [run] stops at the first command whose
    status has a non-zero high byte: the commands of the candidates
    before it have been executed in order, it is the last one
    executed, [run] exits with that byte, and neither the candidates
    after it nor the way the evaluation would have ended matter. *)
Theorem run_stops_at_first_failure (self : ArgCombiner Fn) fuel expr
    (w : World) before c after :
  pretend self = false →
  (execute call (map PyStr (extra_args self)) fuel expr (init_env self)).1
    = before ++ c :: after →
  Forall (fun raw => Z.shiftr raw 8 = 0%Z)
    (system_all system w (commands_of before)).1 →
  Z.shiftr
    (system (system_all system w (commands_of before)).2
       (to_command str quote c.1)).1 8 ≠ 0%Z →
  ArgCombiner_run call str quote system user_error self fuel expr w
  = (map System (commands_of (before ++ [c])),
     Exit (Z.shiftr
             (system (system_all system w (commands_of before)).2
                (to_command str quote c.1)).1 8),
     (system (system_all system w (commands_of before)).2
        (to_command str quote c.1)).2).
Proof.
  intros Hpretend Hg Hbefore Hc. unfold ArgCombiner_run.
  rewrite Hpretend, Hg.
  generalize (execute call (map PyStr (extra_args self)) fuel expr
                (init_env self)).2 as o.
  clear Hg. revert w Hbefore Hc.
  induction before as [|[e0 env0] before IH]; intros w Hbefore Hc o; simpl in *.
  - destruct c as [ce cenv]. simpl in *.
    destruct (system w _) as [raw w1]. simpl in *.
    by apply Z.eqb_neq in Hc as ->.
  - destruct (system w _) as [raw w1] eqn:Hsys.
    destruct (system_all system w1 _) as [raws w2] eqn:Hall.
    simpl in *. apply Forall_cons in Hbefore as [Hraw Hraws].
    rewrite Hraw. simpl.
    specialize (IH w1). rewrite Hall in IH. simpl in IH.
    by rewrite (IH Hraws Hc o).
Qed.

(** X20: outside pretend mode, when the status of every command has a
    zero high byte, which a status below 256 has (a command ended by a
    signal), [run] executes the commands of all the candidates, in
    order, each in the world the one before it left, and then ends as
    the evaluation does: it returns, or prints the message of an
    [ArgcombException] and exits with 1, or lets another exception
    through. *)
Theorem run_executes_all (self : ArgCombiner Fn) fuel expr (w : World) :
  (∀ raw, (0 ≤ raw < 256)%Z → Z.shiftr raw 8 = 0%Z) ∧
  (pretend self = false →
   Forall (fun raw => Z.shiftr raw 8 = 0%Z)
     (system_all system w
        (commands_of
           (execute call (map PyStr (extra_args self)) fuel expr
              (init_env self)).1)).1 →
   ArgCombiner_run call str quote system user_error self fuel expr w
   = (let g := execute call (map PyStr (extra_args self)) fuel expr
                 (init_env self) in
      (map System (commands_of g.1) ++ (ending g.2).1, (ending g.2).2,
       (system_all system w (commands_of g.1)).2))).
Proof.
  split.
  - intros raw Hraw. rewrite Z.shiftr_div_pow2 by lia.
    apply Z.div_small. lia.
  - intros Hpretend Hall. unfold ArgCombiner_run. rewrite Hpretend.
    by apply run_loop_succeeding.
Qed.

End RunnerProperties.

(** ** The test suite *)

Example test_basic_flatten :
  commands 20 (PyList [PyStr "echo";
                      PyList [PyStr "hello"; PyList [PyStr "world"]]])
  = [[PyStr "echo"; PyStr "hello"; PyStr "world"]].
Proof. vm_compute. reflexivity. Qed.

Example test_arg_replace :
  commands 20 (PyList [PyStr "foo"; Arg "bar" [PyInt 3] false false;
                      Arg "bar" [PyInt 5] false false])
  = [[PyStr "foo"; PyStr "--bar"; PyInt 5]].
Proof. vm_compute. reflexivity. Qed.

Example test_arg_append :
  commands 20 (PyList [PyStr "foo"; Arg "bar" [PyInt 3] false false;
                      Arg "bar" [PyInt 5] true false])
  = [[PyStr "foo"; PyStr "--bar"; PyInt 3; PyInt 5]].
Proof. vm_compute. reflexivity. Qed.

Example test_arg_delete :
  commands 20 (PyList [PyStr "foo"; Arg "bar" [PyInt 3] false false;
                      Arg "bar" [] false true])
  = [[PyStr "foo"]].
Proof. vm_compute. reflexivity. Qed.

Example test_sel_all :
  commands 20 (PyList [PyStr "foo";
                      Selector PyNone (PyList [PyStr "bar"; PyStr "baz"])])
  = [[PyStr "foo"; PyStr "bar"]; [PyStr "foo"; PyStr "baz"]].
Proof. vm_compute. reflexivity. Qed.

Example test_sel_dict :
  commands 20 (PyList [PyStr "foo";
                      Selector (PyList [PyStr "a"; PyStr "b"])
                        (PyDict [("a", PyStr "bar"); ("b", PyStr "baz")])])
  = [[PyStr "foo"; PyStr "bar"]; [PyStr "foo"; PyStr "baz"]].
Proof. vm_compute. reflexivity. Qed.

Example test_let_lambda :
  commands 20 (PyList [PyStr "foo"; Let "@x" (PyInt 3) false;
                      Callable (EnvItem "@x")])
  = [[PyStr "foo"; PyInt 3]].
Proof. vm_compute. reflexivity. Qed.

Example test_let_if_undefined :
  commands 20 (PyList [PyStr "foo"; Let "@x" (PyInt 3) false;
                      Let "@x" (PyInt 4) true; Callable (EnvItem "@x")])
  = [[PyStr "foo"; PyInt 3]].
Proof. vm_compute. reflexivity. Qed.

Example test_let_overwrite :
  commands 20 (PyList [PyStr "foo"; Let "@x" (PyInt 3) false;
                      Let "@x" (PyInt 4) false; Callable (EnvItem "@x")])
  = [[PyStr "foo"; PyInt 4]].
Proof. vm_compute. reflexivity. Qed.

(** ** The theorems at concrete inputs *)

(** [["foo", sel(None, "bar", "baz"), "x"]]: the candidates of the selector
    in the outer loop, those of the rest in the inner loop. *)
Lemma execute_list_cross_product_witness :
  evaluates test_call
    (Selector PyNone (PyList [PyStr "bar"; PyStr "baz"])) ∅
    ([(PyStr "bar", ∅); (PyStr "baz", ∅)], Done) ∧
  (∀ (v0 : Expr TestFn) (env0 : gmap string (Expr TestFn)),
     (v0, env0) ∈ [(PyStr "bar", ∅); (PyStr "baz", ∅)] →
     list_evaluates test_call [PyStr "x"] env0
       ([([PyStr "x"], env0)], Done)) ∧
  list_evaluates test_call
    [Selector PyNone (PyList [PyStr "bar"; PyStr "baz"]); PyStr "x"] ∅
    ([([PyStr "bar"; PyStr "x"], ∅); ([PyStr "baz"; PyStr "x"], ∅)], Done).
Proof.
  assert (evaluates test_call
            (Selector PyNone (PyList [PyStr "bar"; PyStr "baz"])) ∅
            ([(PyStr "bar", ∅); (PyStr "baz", ∅)], Done)) as He0.
  { exists 2. split; [reflexivity|discriminate]. }
  assert (∀ (v0 : Expr TestFn) (env0 : gmap string (Expr TestFn)),
            (v0, env0) ∈ [(PyStr "bar", ∅); (PyStr "baz", ∅)] →
            list_evaluates test_call [PyStr "x"] env0
              ([([PyStr "x"], env0)], Done)) as Hrest.
  { intros v0 env0 _. exists 3. split; [reflexivity|discriminate]. }
  split_and!; [exact He0|exact Hrest|].
  exact (proj2 (execute_list_cross_product test_call) _ _ _ _
           (fun env0 => [([PyStr "x"], env0)]) He0 Hrest).
Defined.

(** [[arg("bar", 3), "x", arg("bar", delete=True), "y", arg("bar", 5)]]:
    the flag and the value 5 come first, where [bar] first occurs, and
    not after ["y"], where it is set again; and a name that is deleted
    once more after it was set again is not in the output at all. *)
Lemma argument_not_emitted_at_later_occurrence :
  interpret_args
    [Arg "bar" [PyInt 3] false false; PyStr "x"; Arg "bar" [] false true;
     PyStr "y"; Arg "bar" [PyInt 5] false false]
  = [PyStr "--bar"; PyInt 5; PyStr "x"; PyStr "y" : Expr TestFn] ∧
  accumulate
    [Arg "bar" [PyInt 3] false false; PyStr "x"; Arg "bar" [] false true;
     PyStr "y"; Arg "bar" [PyInt 5] false false] !! "bar"
  = Some [PyInt 5 : Expr TestFn] ∧
  ¬ emitted_at
      [Arg "bar" [PyInt 3] false false; PyStr "x"; Arg "bar" [] false true;
       PyStr "y"; Arg "bar" [PyInt 5] false false]
      4 "bar" [PyInt 5 : Expr TestFn] ∧
  interpret_args
    [Arg "bar" [PyInt 3] false false; Arg "bar" [] false true;
     Arg "bar" [PyInt 5] false false; Arg "bar" [] false true]
  = ([] : list (Expr TestFn)).
Proof.
  split_and!.
  - vm_compute. reflexivity.
  - vm_compute. reflexivity.
  - unfold emitted_at. vm_compute. discriminate.
  - vm_compute. reflexivity.
Qed.

Lemma argument_emitted_at_first_occurrence_witness :
  Forall (fun e : Expr TestFn => arg_named "bar" e = false) [PyStr "foo"] ∧
  Forall (fun e : Expr TestFn => arg_named "bar" e = false) [PyStr "z"] ∧
  (false = true ∨ false = false) ∧
  ∃ vs : list (Expr TestFn),
    accumulate
      ([PyStr "foo"] ++ Arg "bar" [PyInt 3] false false ::
       [PyStr "x"] ++ Arg "bar" [] false true ::
       [PyStr "y"] ++ Arg "bar" [PyInt 5] false false :: [PyStr "z"])
      !! "bar" = Some vs ∧
    emitted_at
      ([PyStr "foo"] ++ Arg "bar" [PyInt 3] false false ::
       [PyStr "x"] ++ Arg "bar" [] false true ::
       [PyStr "y"] ++ Arg "bar" [PyInt 5] false false :: [PyStr "z"])
      1 "bar" vs.
Proof.
  assert (Forall (fun e : Expr TestFn => arg_named "bar" e = false)
            [PyStr "foo"]) as Hbefore by (by repeat constructor).
  assert (Forall (fun e : Expr TestFn => arg_named "bar" e = false)
            [PyStr "z"]) as Hafter by (by repeat constructor).
  assert (false = true ∨ false = false) as Hmode by (by right).
  split_and!; [done..|].
  destruct (argument_emitted_at_first_occurrence
              [PyStr "foo"] [PyStr "x"] [PyStr "y"] [PyStr "z"] "bar"
              [PyInt 3] false false [] [PyInt 5] false false
              Hbefore Hafter Hmode) as (vs & Hvs & Hat & _).
  by exists vs.
Defined.

(** [["foo", arg("bar", let("@x", 3))]] evaluates to a token list whose
    [Arg] carries the [Let]; the resolver emits it after the flag. *)
Lemma interpret_args_emits_marker :
  commands 20 (PyList [PyStr "foo";
                       Arg "bar" [Let "@x" (PyInt 3) false] false false])
  = [[PyStr "foo"; PyStr "--bar"; Let "@x" (PyInt 3) false]] ∧
  interpret_args
    [PyStr "foo"; Arg "bar" [Let "@x" (PyInt 3) false] false false]
  = [PyStr "foo"; PyStr "--bar"; Let "@x" (PyInt 3) false : Expr TestFn] ∧
  Exists (fun x : Expr TestFn => is_marker x = true)
    (interpret_args
       [PyStr "foo"; Arg "bar" [Let "@x" (PyInt 3) false] false false]).
Proof.
  split_and!.
  - vm_compute. reflexivity.
  - vm_compute. reflexivity.
  - vm_compute. apply Exists_cons_tl, Exists_cons_tl, Exists_cons_hd.
    reflexivity.
Qed.

Lemma interpret_args_output_witness :
  (∀ name values a d,
     Arg name values a d
       ∈ [PyStr "foo"; Arg "bar" [PyInt 3] false false;
          Let "@x" (PyInt 3) false : Expr TestFn] →
     Forall (fun v => is_marker v = false) values) ∧
  Forall (fun x : Expr TestFn => is_marker x = false)
    (interpret_args
       [PyStr "foo"; Arg "bar" [PyInt 3] false false;
        Let "@x" (PyInt 3) false]).
Proof.
  assert (∀ name values a d,
            Arg name values a d
              ∈ [PyStr "foo"; Arg "bar" [PyInt 3] false false;
                 Let "@x" (PyInt 3) false : Expr TestFn] →
            Forall (fun v => is_marker v = false) values) as Hvalues.
  { intros name values a d Hin.
    repeat (apply elem_of_cons in Hin as [Hin|Hin]; try discriminate).
    - injection Hin as -> -> -> ->. by repeat constructor.
    - by apply elem_of_nil in Hin. }
  split; [exact Hvalues|].
  exact (proj2 (interpret_args_output _) Hvalues).
Defined.

Lemma accumulate_modes_witness :
  Forall (fun e : Expr TestFn => arg_named "bar" e = false) [PyStr "x"] ∧
  accumulate
    ([Arg "bar" [PyInt 3] false false]
     ++ Arg "bar" [PyInt 5] false false :: [PyStr "x" : Expr TestFn])
    !! "bar" = Some [PyInt 5] ∧
  accumulate
    ([Arg "bar" [PyInt 3] false false]
     ++ Arg "bar" [PyInt 5] true false :: [PyStr "x" : Expr TestFn])
    !! "bar"
  = Some (default [] (accumulate [Arg "bar" [PyInt 3] false false] !! "bar")
          ++ [PyInt 5]).
Proof.
  assert (Forall (fun e : Expr TestFn => arg_named "bar" e = false)
            [PyStr "x"]) as Hafter by (by repeat constructor).
  destruct (@accumulate_modes TestFn)
    as (_ & _ & _ & _ & _ & Hreplace & Happend).
  split_and!; [done| |].
  - by apply Hreplace.
  - by apply Happend.
Defined.


(** [let("@x", lambda env: env["@y"], if_undefined=True)] where [@x] is
    bound and [@y] is not: the lambda would raise, and is not called.
    [let("@x", 4)] overwrites. *)
Lemma let_binding_witness :
  is_Some (({["@x" := PyInt 3]} : gmap string (Expr TestFn)) !! "@x") ∧
  evaluates test_call (Callable (EnvItem "@y")) {["@x" := PyInt 3]}
    ([], Raised (Uncaught (KeyError "@y"))) ∧
  internal_execute test_call 1
    (Let "@x" (Callable (EnvItem "@y")) true) {["@x" := PyInt 3]}
  = ([(Let "@x" (Callable (EnvItem "@y")) true, {["@x" := PyInt 3]})], Done) ∧
  evaluates test_call (PyInt 4) {["@x" := PyInt 3]}
    ([(PyInt 4, {["@x" := PyInt 3]})], Done) ∧
  evaluates test_call (Let "@x" (PyInt 4) false) {["@x" := PyInt 3]}
    ([(Let "@x" (PyInt 4) false, <["@x" := PyInt 4]> {["@x" := PyInt 3]})],
     Done).
Proof.
  assert (is_Some (({["@x" := PyInt 3]} : gmap string (Expr TestFn)) !! "@x"))
    as Hbound by (by exists (PyInt 3)).
  assert (evaluates test_call (PyInt 4) {["@x" := PyInt 3]}
            ([(PyInt 4, {["@x" := PyInt 3]})], Done)) as Hvalue.
  { exists 1. split; [reflexivity|discriminate]. }
  destruct (let_binding test_call) as (Hskip & Hbind & _).
  split_and!.
  - exact Hbound.
  - exists 2. split; [reflexivity|discriminate].
  - exact (Hskip 0 "@x" (Callable (EnvItem "@y")) _ Hbound).
  - exact Hvalue.
  - exact (Hbind "@x" (PyInt 4) false _ _ _ (or_introl eq_refl) Hvalue).
Defined.

(** [flatten] of [["echo", ["hello", ["world"]]]] and of the flat list. *)
Lemma flatten_idempotent_witness :
  Forall (fun y : Expr TestFn => is_list y = false)
    [PyStr "echo"; PyStr "hello"; PyStr "world"] ∧
  flatten (PyList [PyStr "echo"; PyStr "hello"; PyStr "world" : Expr TestFn])
  = [PyStr "echo"; PyStr "hello"; PyStr "world"] ∧
  flatten
    (PyList
       (flatten (PyList [PyStr "echo";
                         PyList [PyStr "hello"; PyList [PyStr "world"]]])))
  = flatten (PyList [PyStr "echo";
                     PyList [PyStr "hello";
                             PyList [PyStr "world" : Expr TestFn]]]).
Proof.
  assert (Forall (fun y : Expr TestFn => is_list y = false)
            [PyStr "echo"; PyStr "hello"; PyStr "world"]) as Hflat
    by (by repeat constructor).
  destruct (@flatten_idempotent TestFn) as [Hidem Hsame].
  split_and!; [exact Hflat|exact (Hsame _ Hflat)|apply Hidem].
Defined.

(** [["foo", sel(None, let("@x", 1), lambda env: env["@x"])]] started on
    the dict [{"@x": 0}] at address 0: the second branch reads 0. *)
Lemma evaluation_preserves_environments_witness :
  ([{["@x" := PyInt 0]}] : list (gmap string (Expr TestFn))) !! 0%nat
  = Some {["@x" := PyInt 0]} ∧
  (drain
     (internal_execute_st test_call 20
        (PyList [PyStr "foo";
                 Selector PyNone
                   (PyList [Let "@x" (PyInt 1) false;
                            Callable (EnvItem "@x")])])
        0 [{["@x" := PyInt 0]}])).2 !! 0%nat
  = Some {["@x" := PyInt 0]} ∧
  (internal_execute test_call 20
     (PyList [PyStr "foo";
              Selector PyNone
                (PyList [Let "@x" (PyInt 1) false;
                         Callable (EnvItem "@x")])])
     {["@x" := PyInt 0]}).1
  = [(PyList [PyStr "foo"; Let "@x" (PyInt 1) false],
      <["@x" := PyInt 1]> {["@x" := PyInt 0]});
     (PyList [PyStr "foo"; PyInt 0], {["@x" := PyInt 0]})].
Proof.
  assert (([{["@x" := PyInt 0]}] : list (gmap string (Expr TestFn))) !! 0%nat
          = Some {["@x" := PyInt 0]}) as Hd by reflexivity.
  split_and!; [exact Hd| |vm_compute; reflexivity].
  exact (proj1 (proj1 (evaluation_preserves_environments test_call 20
                         (PyList [PyStr "foo";
                                  Selector PyNone
                                    (PyList [Let "@x" (PyInt 1) false;
                                             Callable (EnvItem "@x")])])
                         0%nat _ _ Hd) 0%nat _ Hd)).
Defined.

(** C9, at the input [sel([[0]], "bar", "baz")]: the key [[0]] is a
    list and is not in [choices], but the membership test hashes it first
    and raises [TypeError]; the selector does not raise the error of an
    unknown choice.  [run] of the list that holds this selector lets the
    [TypeError] propagate, where for the unknown key 5 it prints the
    message of the [ArgcombException] and exits with 1. *)
Lemma selector_unhashable_key :
  canonical_which (zip_range [PyStr "bar"; PyStr "baz"])
    (PyList [PyList [PyInt 0]])
  = [PyList [PyInt 0 : Expr TestFn]] ∧
  getitem (zip_range [PyStr "bar"; PyStr "baz"])
    (PyList [PyInt 0 : Expr TestFn]) = None ∧
  evaluates test_call
    (Selector (PyList [PyList [PyInt 0]]) (PyList [PyStr "bar"; PyStr "baz"]))
    ∅ ([], Raised (TypeError (PyList [PyInt 0]))) ∧
  ¬ evaluates test_call
      (Selector (PyList [PyList [PyInt 0]])
         (PyList [PyStr "bar"; PyStr "baz"]))
      ∅ ([], Raised (UnknownChoice (PyList [PyInt 0])
                       (keys (zip_range [PyStr "bar"; PyStr "baz"])))) ∧
  run test_call test_fullmatch test_json_loads test_str test_quote
    test_system test_user_error ["-n"] 20
    [sel (PyList [PyList [PyInt 0]]) [PyStr "bar"; PyStr "baz"]] []
  = ([], Propagates (TypeError (PyList [PyInt 0])), []) ∧
  run test_call test_fullmatch test_json_loads test_str test_quote
    test_system test_user_error ["-n"] 20
    [sel (PyInt 5) [PyStr "bar"; PyStr "baz"]] []
  = ([Stderr (UnknownChoice (PyInt 5) [PyInt 0; PyInt 1])], Exit 1, []).
Proof.
  assert (evaluates test_call
            (Selector (PyList [PyList [PyInt 0]])
               (PyList [PyStr "bar"; PyStr "baz"]))
            ∅ ([], Raised (TypeError (PyList [PyInt 0])))) as Htype.
  { exists 1. split; [reflexivity|discriminate]. }
  split_and!; [reflexivity|reflexivity|exact Htype| |
               vm_compute; reflexivity|vm_compute; reflexivity].
  intros Hunknown.
  pose proof (evaluates_unique test_call _ _ _ _ Htype Hunknown) as Heq.
  discriminate Heq.
Qed.

(** [sel([0, 5, 1], "bar", "baz")]: the branch of 0, then the error at
    5; 1 is not reached. *)
Lemma selector_unknown_choice_witness :
  canonical_choices (PyList [PyStr "bar"; PyStr "baz" : Expr TestFn])
  = Some (zip_range [PyStr "bar"; PyStr "baz"]) ∧
  resolve_which (FnExn:=TestExn) (∅ : gmap string (Expr TestFn))
    (PyList [PyInt 0; PyInt 5; PyInt 1])
  = inr (PyList [PyInt 0; PyInt 5; PyInt 1]) ∧
  canonical_which (zip_range [PyStr "bar"; PyStr "baz"])
    (PyList [PyInt 0; PyInt 5; PyInt 1 : Expr TestFn])
  = [PyInt 0] ++ PyInt 5 :: [PyInt 1] ∧
  Forall2 (selects test_call (zip_range [PyStr "bar"; PyStr "baz"]) ∅)
    [PyInt 0] [[(PyStr "bar", ∅)]] ∧
  hashable (PyInt 5 : Expr TestFn) = true ∧
  getitem (zip_range [PyStr "bar"; PyStr "baz"]) (PyInt 5 : Expr TestFn)
  = None ∧
  evaluates test_call
    (Selector (PyList [PyInt 0; PyInt 5; PyInt 1])
       (PyList [PyStr "bar"; PyStr "baz"]))
    ∅
    (concat [[(PyStr "bar", ∅)]],
     Raised (UnknownChoice (PyInt 5)
               (keys (zip_range [PyStr "bar"; PyStr "baz"])))).
Proof.
  assert (Forall2 (selects test_call (zip_range [PyStr "bar"; PyStr "baz"]) ∅)
            [PyInt 0] [[(PyStr "bar", ∅)]]) as Hkeys.
  { repeat constructor. exists (PyStr "bar"). split_and!; [reflexivity..|].
    exists 1. split; [reflexivity|discriminate]. }
  split_and!; [reflexivity|reflexivity|reflexivity|exact Hkeys|
               reflexivity|reflexivity|].
  destruct (selector_unknown_choice test_call) as (Hunknown & _).
  exact (Hunknown (PyList [PyInt 0; PyInt 5; PyInt 1])
           (PyList [PyStr "bar"; PyStr "baz"]) ∅ _ _ [PyInt 0] (PyInt 5)
           [PyInt 1] _ eq_refl eq_refl eq_refl Hkeys eq_refl eq_refl).
Defined.

(** [["echo", ["hello", ["world"]], arg("bar", 3)]] is its only
    candidate. *)
Lemma plain_evaluates_to_itself_witness :
  plain (PyList [PyStr "echo";
                 PyList [PyStr "hello"; PyList [PyStr "world"]];
                 Arg "bar" [PyInt 3] false false] : Expr TestFn) = true ∧
  evaluates test_call
    (PyList [PyStr "echo";
             PyList [PyStr "hello"; PyList [PyStr "world"]];
             Arg "bar" [PyInt 3] false false]) ∅
    ([(PyList [PyStr "echo";
               PyList [PyStr "hello"; PyList [PyStr "world"]];
               Arg "bar" [PyInt 3] false false], ∅)], Done).
Proof.
  split; [reflexivity|].
  apply (plain_evaluates_to_itself test_call). reflexivity.
Defined.

Lemma interpret_args_idempotent_witness :
  Forall (fun e : Expr TestFn => is_marker e = false)
    [PyStr "echo"; PyStr "hello"] ∧
  interpret_args [PyStr "echo"; PyStr "hello" : Expr TestFn]
  = [PyStr "echo"; PyStr "hello"].
Proof.
  assert (Forall (fun e : Expr TestFn => is_marker e = false)
            [PyStr "echo"; PyStr "hello"]) as H by (by repeat constructor).
  split; [exact H|].
  exact (proj1 (interpret_args_idempotent _) H).
Defined.

(** [["foo", arg("bar", 3), arg("baz", 1), arg("bar", delete=True), "x"]]
    resolves as [["foo", arg("baz", 1), "x"]] does. *)
Lemma deleted_argument_is_erased_witness :
  Forall (fun e : Expr TestFn => arg_named "bar" e = false) [PyStr "x"] ∧
  interpret_args
    ([PyStr "foo"; Arg "bar" [PyInt 3] false false;
      Arg "baz" [PyInt 1] false false]
     ++ Arg "bar" [] false true :: [PyStr "x" : Expr TestFn])
  = interpret_args
      (List.filter (fun e => negb (arg_named "bar" e))
         ([PyStr "foo"; Arg "bar" [PyInt 3] false false;
           Arg "baz" [PyInt 1] false false] ++ [PyStr "x"])).
Proof.
  assert (Forall (fun e : Expr TestFn => arg_named "bar" e = false)
            [PyStr "x"]) as H by (by repeat constructor).
  split; [exact H|].
  exact (proj2 (deleted_argument_is_erased _ _ "bar" [] H)).
Defined.

Lemma returned_list_is_cross_product_witness :
  list_evaluates test_call
    [Selector PyNone (PyList [PyStr "bar"; PyStr "baz"]); PyStr "x"] ∅
    ([([PyStr "bar"; PyStr "x"], ∅); ([PyStr "baz"; PyStr "x"], ∅)], Done) ∧
  ∃ c0 (cr : gmap string (Expr TestFn)
             → list (list (Expr TestFn) * gmap string (Expr TestFn))),
    evaluates test_call
      (Selector PyNone (PyList [PyStr "bar"; PyStr "baz"])) ∅ (c0, Done) ∧
    [([PyStr "bar"; PyStr "x"], ∅); ([PyStr "baz"; PyStr "x"], ∅)]
    = cross_product c0 cr.
Proof.
  assert (list_evaluates test_call
            [Selector PyNone (PyList [PyStr "bar"; PyStr "baz"]); PyStr "x"]
            ∅
            ([([PyStr "bar"; PyStr "x"], ∅); ([PyStr "baz"; PyStr "x"], ∅)],
             Done)) as H.
  { exists 8. split; [vm_compute; reflexivity|discriminate]. }
  split; [exact H|].
  destruct (returned_list_is_cross_product test_call _ _ _ _ H)
    as (c0 & cr & He0 & _ & Hc).
  by exists c0, cr.
Defined.

Lemma concatenation_is_threaded_product_witness :
  list_evaluates test_call
    [Selector PyNone (PyList [PyStr "bar"; PyStr "baz"])] ∅
    ([([PyStr "bar"], ∅); ([PyStr "baz"], ∅)], Done) ∧
  (∀ (r : list (Expr TestFn)) (env1 : gmap string (Expr TestFn)),
     (r, env1) ∈ [([PyStr "bar"], ∅); ([PyStr "baz"], ∅)] →
     list_evaluates test_call [PyStr "x"; PyStr "y"] env1
       ([([PyStr "x"; PyStr "y"], env1)], Done)) ∧
  list_evaluates test_call
    ([Selector PyNone (PyList [PyStr "bar"; PyStr "baz"])]
     ++ [PyStr "x"; PyStr "y"]) ∅
    ([([PyStr "bar"; PyStr "x"; PyStr "y"], ∅);
      ([PyStr "baz"; PyStr "x"; PyStr "y"], ∅)], Done).
Proof.
  assert (list_evaluates test_call
            [Selector PyNone (PyList [PyStr "bar"; PyStr "baz"])] ∅
            ([([PyStr "bar"], ∅); ([PyStr "baz"], ∅)], Done)) as H1.
  { exists 8. split; [vm_compute; reflexivity|discriminate]. }
  assert (∀ (r : list (Expr TestFn)) (env1 : gmap string (Expr TestFn)),
            (r, env1) ∈ [([PyStr "bar"], ∅); ([PyStr "baz"], ∅)] →
            list_evaluates test_call [PyStr "x"; PyStr "y"] env1
              ([([PyStr "x"; PyStr "y"], env1)], Done)) as H2.
  { intros r env1 _. exists 5. split; [reflexivity|discriminate]. }
  split_and!; [exact H1|exact H2|].
  exact (concatenation_is_threaded_product test_call _ _ _ _
           (fun env1 => [([PyStr "x"; PyStr "y"], env1)]) H1 H2).
Defined.

(** [ArgCombiner(["world"])] and [["echo", "hello"]], as in
    [test_constructor]. *)
Lemma execute_appends_extra_args_witness :
  is_list (PyStr "echo" : Expr TestFn) = false ∧
  execute test_call (map PyStr ["world"]) 5 (PyStr "echo") ∅
  = ([], Raised (NotAList (PyStr "echo"))) ∧
  list_evaluates test_call [PyStr "echo"; PyStr "hello"] ∅
    ([([PyStr "echo"; PyStr "hello"], ∅)], Done) ∧
  ∃ n, ∀ fuel, n ≤ fuel →
    execute test_call (map PyStr ["world"]) fuel
      (PyList [PyStr "echo"; PyStr "hello"]) ∅
    = ([(PyList [PyStr "echo"; PyStr "hello"; PyStr "world"], ∅)], Done).
Proof.
  assert (list_evaluates test_call [PyStr "echo"; PyStr "hello"] ∅
            ([([PyStr "echo"; PyStr "hello"], ∅)], Done)) as H.
  { exists 5. split; [reflexivity|discriminate]. }
  destruct (execute_appends_extra_args test_call ["world"]) as [Hnot Hlist].
  split_and!; [reflexivity|exact (Hnot 5 (PyStr "echo") ∅ eq_refl)|exact H|].
  exact (Hlist _ _ _ H).
Defined.

(** [sel(1, "bar", "baz")], and the selector of [example2.py] with
    [@mode] set to ["fast"]. *)
Lemma selector_single_key_witness :
  single_dict [PyStr "bar"; PyStr "baz" : Expr TestFn] = false ∧
  [PyStr "bar"; PyStr "baz" : Expr TestFn] !! 1%nat = Some (PyStr "baz") ∧
  evaluates test_call (PyStr "baz") ∅ ([(PyStr "baz", ∅)], Done) ∧
  evaluates test_call (sel (PyInt (Z.of_nat 1)) [PyStr "bar"; PyStr "baz"]) ∅
    ([(PyStr "baz", ∅)], Done) ∧
  evaluates test_call
    (sel (PyStr "@mode")
       [PyDict [("fast", Arg "num-iters" [PyInt 5] false false);
                ("slow", Arg "num-iters" [PyInt 10] false false)]])
    {["@mode" := PyStr "fast"]}
    ([(Arg "num-iters" [PyInt 5] false false, {["@mode" := PyStr "fast"]})],
     Done).
Proof.
  assert (evaluates test_call (PyStr "baz") ∅ ([(PyStr "baz", ∅)], Done))
    as Hbaz by (exists 1; split; [reflexivity|discriminate]).
  assert (evaluates test_call (Arg "num-iters" [PyInt 5] false false)
            {["@mode" := PyStr "fast"]}
            ([(Arg "num-iters" [PyInt 5] false false,
               {["@mode" := PyStr "fast"]})], Done)) as Hfast.
  { exists 8. split; [vm_compute; reflexivity|discriminate]. }
  destruct (selector_single_key test_call) as (_ & Hindex & Hvar).
  split_and!; [reflexivity|reflexivity|exact Hbaz| |].
  - apply (Hindex 1%nat [PyStr "bar"; PyStr "baz"] (PyStr "baz"));
      [reflexivity|reflexivity|exact Hbaz].
  - apply (Hvar "@mode" "fast" _ (Arg "num-iters" [PyInt 5] false false));
      [reflexivity|reflexivity|reflexivity|exact Hfast].
Defined.

(** [selarg(None, "name", "a1", "a2")], as in [test_sel]. *)
Lemma selarg_candidates_witness :
  single_dict [PyStr "a1"; PyStr "a2" : Expr TestFn] = false ∧
  forallb plain [PyStr "a1"; PyStr "a2" : Expr TestFn] = true ∧
  evaluates test_call (selarg PyNone "name" [PyStr "a1"; PyStr "a2"]) ∅
    ([(Arg "name" [PyStr "a1"] false false, ∅);
      (Arg "name" [PyStr "a2"] false false, ∅)], Done).
Proof.
  split_and!; [reflexivity..|].
  apply (proj1 (selarg_candidates test_call)); reflexivity.
Defined.

(** [["foo", sel([], "bar"), lambda env: env["@x"]]]: no command, and
    the lambda, which would raise, is not called. *)
Lemma empty_selection_empties_the_list_witness :
  list_evaluates test_call [PyStr "foo"] ∅ ([([PyStr "foo"], ∅)], Done) ∧
  (∀ (r : list (Expr TestFn)) (env1 : gmap string (Expr TestFn)),
     (r, env1) ∈ [([PyStr "foo"], ∅)] →
     evaluates test_call (Selector (PyList []) (PyList [PyStr "bar"])) env1
       ([], Done)) ∧
  list_evaluates test_call
    ([PyStr "foo"] ++ Selector (PyList []) (PyList [PyStr "bar"])
                   :: [Callable (EnvItem "@x")]) ∅ ([], Done).
Proof.
  assert (list_evaluates test_call [PyStr "foo"] ∅
            ([([PyStr "foo"], ∅)], Done)) as H1.
  { exists 3. split; [reflexivity|discriminate]. }
  assert (∀ (r : list (Expr TestFn)) (env1 : gmap string (Expr TestFn)),
            (r, env1) ∈ [([PyStr "foo"], ∅)] →
            evaluates test_call
              (Selector (PyList []) (PyList [PyStr "bar"])) env1 ([], Done))
    as H2.
  { intros r env1 _. exists 1. split; [reflexivity|discriminate]. }
  split_and!; [exact H1|exact H2|].
  exact (proj2 (empty_selection_empties_the_list test_call) _ _ _ _ _ H1 H2).
Defined.

(** [let_if_undefined("@mode", "slow")] of [example2.py], with [@mode]
    given and not given. *)
Lemma let_if_undefined_is_a_default_witness :
  is_Some (({["@mode" := PyStr "fast"]} : gmap string (Expr TestFn))
             !! "@mode") ∧
  list_evaluates test_call [Callable (EnvItem "@mode")]
    {["@mode" := PyStr "fast"]}
    ([([PyStr "fast"], {["@mode" := PyStr "fast"]})], Done) ∧
  list_evaluates test_call
    [let_if_undefined "@mode" (PyStr "slow"); Callable (EnvItem "@mode")]
    {["@mode" := PyStr "fast"]}
    ([([let_if_undefined "@mode" (PyStr "slow"); PyStr "fast"],
       {["@mode" := PyStr "fast"]})], Done) ∧
  (∅ : gmap string (Expr TestFn)) !! "@mode" = None ∧
  plain (PyStr "slow" : Expr TestFn) = true ∧
  list_evaluates test_call [Callable (EnvItem "@mode")]
    (<["@mode" := PyStr "slow"]> ∅)
    ([([PyStr "slow"], <["@mode" := PyStr "slow"]> ∅)], Done) ∧
  list_evaluates test_call
    [let_if_undefined "@mode" (PyStr "slow"); Callable (EnvItem "@mode")] ∅
    ([([let_if_undefined "@mode" (PyStr "slow"); PyStr "slow"],
       <["@mode" := PyStr "slow"]> ∅)], Done).
Proof.
  assert (is_Some (({["@mode" := PyStr "fast"]} : gmap string (Expr TestFn))
                     !! "@mode")) as Hbound by (by exists (PyStr "fast")).
  assert (list_evaluates test_call [Callable (EnvItem "@mode")]
            {["@mode" := PyStr "fast"]}
            ([([PyStr "fast"], {["@mode" := PyStr "fast"]})], Done)) as Hfast.
  { exists 8. split; [vm_compute; reflexivity|discriminate]. }
  assert (list_evaluates test_call [Callable (EnvItem "@mode")]
            (<["@mode" := PyStr "slow"]> ∅)
            ([([PyStr "slow"], <["@mode" := PyStr "slow"]> ∅)], Done))
    as Hslow.
  { exists 8. split; [vm_compute; reflexivity|discriminate]. }
  split_and!; [exact Hbound|exact Hfast| |reflexivity|reflexivity|exact Hslow|].
  - exact (proj1 (let_if_undefined_is_a_default test_call "@mode"
                    (PyStr "slow") [Callable (EnvItem "@mode")]
                    {["@mode" := PyStr "fast"]}
                    [([PyStr "fast"], {["@mode" := PyStr "fast"]})])
             Hbound Hfast).
  - exact (proj2 (let_if_undefined_is_a_default test_call "@mode"
                    (PyStr "slow") [Callable (EnvItem "@mode")] ∅
                    [([PyStr "slow"], <["@mode" := PyStr "slow"]> ∅)])
             eq_refl eq_refl Hslow).
Defined.

(** [lambda env: env["@x"]] under [{"@x": 3}] and under [{}]. *)
Lemma callable_is_evaluated_in_place_witness :
  test_call (EnvItem "@x") {["@x" := PyInt 3]} = inr (PyInt 3) ∧
  evaluates test_call (PyInt 3) {["@x" := PyInt 3]}
    ([(PyInt 3, {["@x" := PyInt 3]})], Done) ∧
  evaluates test_call (Callable (EnvItem "@x")) {["@x" := PyInt 3]}
    ([(PyInt 3, {["@x" := PyInt 3]})], Done) ∧
  test_call (EnvItem "@x") ∅ = inl (KeyError "@x") ∧
  evaluates test_call (Callable (EnvItem "@x")) ∅
    ([], Raised (Uncaught (KeyError "@x"))).
Proof.
  assert (evaluates test_call (PyInt 3) {["@x" := PyInt 3]}
            ([(PyInt 3, {["@x" := PyInt 3]})], Done)) as H3.
  { exists 1. split; [reflexivity|discriminate]. }
  split_and!; [reflexivity|exact H3| |reflexivity|].
  - apply (proj1 (callable_is_evaluated_in_place test_call (EnvItem "@x")
                    {["@x" := PyInt 3]}) (PyInt 3)); [reflexivity|exact H3].
  - apply (proj2 (callable_is_evaluated_in_place test_call (EnvItem "@x") ∅)).
    reflexivity.
Defined.

(** [ArgCombiner(["-n", "@mode=fast", "hello", "@x=3", "@mode=slow"])]. *)
Lemma init_arguments_witness :
  String.eqb "@mode=slow" "-n" = false ∧
  test_fullmatch "@mode=slow" = Some ("@mode", "slow") ∧
  Forall (fun a => assigns test_fullmatch "@mode" a = false) [] ∧
  init_env
    (init test_fullmatch test_json_loads
       (["-n"; "@mode=fast"; "hello"; "@x=3"] ++ "@mode=slow" :: []) false)
    !! "@mode" = Some (PyStr "slow") ∧
  Forall (fun a => assigns test_fullmatch "@y" a = false)
    ["-n"; "@mode=fast"; "hello"; "@x=3"; "@mode=slow"] ∧
  init_env
    (init test_fullmatch test_json_loads
       ["-n"; "@mode=fast"; "hello"; "@x=3"; "@mode=slow"] false)
    !! "@y" = None ∧
  extra_args
    (init test_fullmatch test_json_loads
       ["-n"; "@mode=fast"; "hello"; "@x=3"; "@mode=slow"] false)
  = ["hello"] ∧
  init_env
    (init test_fullmatch test_json_loads
       ["-n"; "@mode=fast"; "hello"; "@x=3"; "@mode=slow"] false)
    !! "@x" = Some (PyInt 3).
Proof.
  assert (Forall (fun a => assigns test_fullmatch "@mode" a = false) [])
    as Hnone by constructor.
  assert (Forall (fun a => assigns test_fullmatch "@y" a = false)
            ["-n"; "@mode=fast"; "hello"; "@x=3"; "@mode=slow"]) as Hy
    by (by repeat constructor).
  destruct (init_arguments test_fullmatch test_json_loads false)
    as (_ & _ & Hlast & Habsent).
  split_and!; [reflexivity|reflexivity|exact Hnone| |exact Hy| |
               vm_compute; reflexivity|vm_compute; reflexivity].
  - exact (Hlast ["-n"; "@mode=fast"; "hello"; "@x=3"] "@mode=slow" []
             "@mode" "slow" eq_refl eq_refl Hnone).
  - exact (Habsent _ "@y" Hy).
Defined.

(** [["echo", sel(None, "a", "b c")]] with [-n]. *)
Lemma run_pretend_executes_nothing_witness :
  pretend (init test_fullmatch test_json_loads ["-n"] false) = true ∧
  ArgCombiner_run test_call test_str test_quote test_system test_user_error
    (init test_fullmatch test_json_loads ["-n"] false) 20
    (PyList [PyStr "echo"; Selector PyNone (PyList [PyStr "a"; PyStr "b c"])])
    []
  = ([Stdout "echo a"; Stdout "echo 'b c'"], Returns, []).
Proof.
  split; [reflexivity|].
  rewrite (proj1 (run_pretend_executes_nothing test_call test_fullmatch
                    test_json_loads test_str test_quote test_system
                    test_user_error)
             (init test_fullmatch test_json_loads ["-n"] false) _ _ _
             eq_refl).
  vm_compute. reflexivity.
Defined.

(** [[sel(None, "true", "false", "echo")]]: [true] and [false] are
    executed, [echo] is not. *)
Lemma run_stops_at_first_failure_witness :
  pretend (init test_fullmatch test_json_loads [] false) = false ∧
  (execute test_call
     (map PyStr (extra_args (init test_fullmatch test_json_loads [] false)))
     20
     (PyList [Selector PyNone
                (PyList [PyStr "true"; PyStr "false"; PyStr "echo"])])
     (init_env (init test_fullmatch test_json_loads [] false))).1
  = [(PyList [PyStr "true"], ∅)] ++ (PyList [PyStr "false"], ∅)
    :: [(PyList [PyStr "echo"], ∅)] ∧
  ArgCombiner_run test_call test_str test_quote test_system test_user_error
    (init test_fullmatch test_json_loads [] false) 20
    (PyList [Selector PyNone
               (PyList [PyStr "true"; PyStr "false"; PyStr "echo"])])
    []
  = ([System "true"; System "false"], Exit 1, ["true"; "false"]).
Proof.
  assert ((execute test_call
             (map PyStr
                (extra_args (init test_fullmatch test_json_loads [] false)))
             20
             (PyList [Selector PyNone
                        (PyList [PyStr "true"; PyStr "false"; PyStr "echo"])])
             (init_env (init test_fullmatch test_json_loads [] false))).1
          = [(PyList [PyStr "true"], ∅)] ++ (PyList [PyStr "false"], ∅)
            :: [(PyList [PyStr "echo"], ∅)]) as Hg
    by (vm_compute; reflexivity).
  split_and!; [reflexivity|exact Hg|].
  rewrite (run_stops_at_first_failure test_call test_str test_quote
             test_system test_user_error
             (init test_fullmatch test_json_loads [] false) 20 _ [] _ _ _
             eq_refl Hg).
  - vm_compute. reflexivity.
  - vm_compute. repeat constructor.
  - vm_compute. discriminate.
Defined.

(** [["echo", sel(None, "a", "b")]]: both commands are executed. *)
Lemma run_executes_all_witness :
  pretend (init test_fullmatch test_json_loads [] false) = false ∧
  ArgCombiner_run test_call test_str test_quote test_system test_user_error
    (init test_fullmatch test_json_loads [] false) 20
    (PyList [PyStr "echo"; Selector PyNone (PyList [PyStr "a"; PyStr "b"])])
    []
  = ([System "echo a"; System "echo b"], Returns, ["echo a"; "echo b"]).
Proof.
  split; [reflexivity|].
  rewrite (proj2 (run_executes_all test_call test_str test_quote
                    test_system test_user_error
                    (init test_fullmatch test_json_loads [] false) 20 _ [])
             eq_refl).
  - vm_compute. reflexivity.
  - vm_compute. repeat constructor.
Defined.

(** [[["hello", sel(None, "a", "b")], "x"]] and
    [["hello", sel(None, "a", "b"), "x"]]. *)
Lemma nesting_is_cosmetic_witness :
  list_evaluates test_call
    [PyStr "hello"; Selector PyNone (PyList [PyStr "a"; PyStr "b"])] ∅
    ([([PyStr "hello"; PyStr "a"], ∅); ([PyStr "hello"; PyStr "b"], ∅)],
     Done) ∧
  (∀ (r : list (Expr TestFn)) (env1 : gmap string (Expr TestFn)),
     (r, env1) ∈ [([PyStr "hello"; PyStr "a"], ∅);
                  ([PyStr "hello"; PyStr "b"], ∅)] →
     list_evaluates test_call [PyStr "x"] env1 ([([PyStr "x"], env1)], Done)) ∧
  ∃ nested flat,
    list_evaluates test_call
      (PyList [PyStr "hello"; Selector PyNone (PyList [PyStr "a"; PyStr "b"])]
       :: [PyStr "x"]) ∅ (nested, Done) ∧
    list_evaluates test_call
      ([PyStr "hello"; Selector PyNone (PyList [PyStr "a"; PyStr "b"])]
       ++ [PyStr "x"]) ∅ (flat, Done) ∧
    map (fun c => (to_tokens (PyList c.1), c.2)) nested
    = map (fun c => (to_tokens (PyList c.1), c.2)) flat.
Proof.
  assert (list_evaluates test_call
            [PyStr "hello"; Selector PyNone (PyList [PyStr "a"; PyStr "b"])]
            ∅
            ([([PyStr "hello"; PyStr "a"], ∅);
              ([PyStr "hello"; PyStr "b"], ∅)], Done)) as H1.
  { exists 8. split; [vm_compute; reflexivity|discriminate]. }
  assert (∀ (r : list (Expr TestFn)) (env1 : gmap string (Expr TestFn)),
            (r, env1) ∈ [([PyStr "hello"; PyStr "a"], ∅);
                         ([PyStr "hello"; PyStr "b"], ∅)] →
            list_evaluates test_call [PyStr "x"] env1
              ([([PyStr "x"], env1)], Done)) as H2.
  { intros r env1 _. exists 3. split; [reflexivity|discriminate]. }
  split_and!; [exact H1|exact H2|].
  exact (nesting_is_cosmetic test_call _ _ _ _
           (fun env1 => [([PyStr "x"], env1)]) H1 H2).
Defined.

(** [["foo", arg("bar", 3), let("@x", 1), arg("baz", delete=True),
    arg("qux", 5, append=True)]]. *)
Lemma distinct_arguments_render_in_place_witness :
  NoDup (arg_names
           [PyStr "foo"; Arg "bar" [PyInt 3] false false;
            Let "@x" (PyInt 1) false; Arg "baz" [] false true;
            Arg "qux" [PyInt 5] true false : Expr TestFn]) ∧
  interpret_args
    [PyStr "foo"; Arg "bar" [PyInt 3] false false;
     Let "@x" (PyInt 1) false; Arg "baz" [] false true;
     Arg "qux" [PyInt 5] true false : Expr TestFn]
  = [PyStr "foo"; PyStr "--bar"; PyInt 3; PyStr "--qux"; PyInt 5].
Proof.
  assert (NoDup (arg_names
                   [PyStr "foo"; Arg "bar" [PyInt 3] false false;
                    Let "@x" (PyInt 1) false; Arg "baz" [] false true;
                    Arg "qux" [PyInt 5] true false : Expr TestFn])) as H.
  { apply (bool_decide_unpack _). vm_compute. reflexivity. }
  split; [exact H|].
  exact (distinct_arguments_render_in_place _ H).
Defined.

(** [[sel(None, "bar", "baz"), sel(None, "x", "y", "z")]]: 2 * 3
    candidates. *)
Lemma candidates_multiply_witness :
  evaluates test_call (Selector PyNone (PyList [PyStr "bar"; PyStr "baz"])) ∅
    ([(PyStr "bar", ∅); (PyStr "baz", ∅)], Done) ∧
  (∀ (v0 : Expr TestFn) (env0 : gmap string (Expr TestFn)),
     (v0, env0) ∈ [(PyStr "bar", ∅); (PyStr "baz", ∅)] →
     list_evaluates test_call
       [Selector PyNone (PyList [PyStr "x"; PyStr "y"; PyStr "z"])] env0
       ([([PyStr "x"], env0); ([PyStr "y"], env0); ([PyStr "z"], env0)],
        Done) ∧
     length [([PyStr "x" : Expr TestFn], env0); ([PyStr "y"], env0);
             ([PyStr "z"], env0)] = 3%nat) ∧
  ∃ c, list_evaluates test_call
         [Selector PyNone (PyList [PyStr "bar"; PyStr "baz"]);
          Selector PyNone (PyList [PyStr "x"; PyStr "y"; PyStr "z"])] ∅
         (c, Done) ∧
       length c = (2 * 3)%nat.
Proof.
  assert (evaluates test_call
            (Selector PyNone (PyList [PyStr "bar"; PyStr "baz"])) ∅
            ([(PyStr "bar", ∅); (PyStr "baz", ∅)], Done)) as He0.
  { exists 2. split; [reflexivity|discriminate]. }
  assert (∀ (v0 : Expr TestFn) (env0 : gmap string (Expr TestFn)),
            (v0, env0) ∈ [(PyStr "bar", ∅); (PyStr "baz", ∅)] →
            list_evaluates test_call
              [Selector PyNone (PyList [PyStr "x"; PyStr "y"; PyStr "z"])]
              env0
              ([([PyStr "x"], env0); ([PyStr "y"], env0);
                ([PyStr "z"], env0)], Done) ∧
            length [([PyStr "x" : Expr TestFn], env0); ([PyStr "y"], env0);
                    ([PyStr "z"], env0)] = 3%nat) as Hrest.
  { intros v0 env0 _. split; [|reflexivity].
    exists 5. split; [reflexivity|discriminate]. }
  split_and!; [exact He0|exact Hrest|].
  exact (candidates_multiply test_call _ _ _ _
           (fun env0 => [([PyStr "x"], env0); ([PyStr "y"], env0);
                         ([PyStr "z"], env0)]) 3%nat He0 Hrest).
Defined.

(** [[sel(None, let("@y", 0), "b", "c"), sel("@y", "bar", "baz")]]: under
    the binding of the first branch the second selector yields ["bar"];
    under the environment of ["b"] it raises [UndefinedVariable], which
    ends the list: ["c"] is not used. *)
Lemma exception_aborts_enumeration_witness :
  evaluates test_call
    (Selector PyNone (PyList [Let "@y" (PyInt 0) false; PyStr "b"; PyStr "c"]))
    ∅
    ([(Let "@y" (PyInt 0) false, {["@y" := PyInt 0]})]
     ++ (PyStr "b", ∅) :: [(PyStr "c", ∅)], Done) ∧
  (∀ (v0 : Expr TestFn) (env0 : gmap string (Expr TestFn)),
     (v0, env0) ∈ [(Let "@y" (PyInt 0) false : Expr TestFn,
                    ({["@y" := PyInt 0]} : gmap string (Expr TestFn)))] →
     list_evaluates test_call
       [Selector (PyStr "@y") (PyList [PyStr "bar"; PyStr "baz"])] env0
       ([([PyStr "bar"], env0)], Done)) ∧
  list_evaluates test_call
    [Selector (PyStr "@y") (PyList [PyStr "bar"; PyStr "baz"])] ∅
    ([], Raised (UndefinedVariable "@y" ∅)) ∧
  list_evaluates test_call
    [Selector PyNone (PyList [Let "@y" (PyInt 0) false; PyStr "b"; PyStr "c"]);
     Selector (PyStr "@y") (PyList [PyStr "bar"; PyStr "baz"])] ∅
    (cross_product [(Let "@y" (PyInt 0) false, {["@y" := PyInt 0]})]
       (fun env0 => [([PyStr "bar"], env0)])
     ++ map (fun c => (PyStr "b" :: c.1, c.2)) [],
     Raised (UndefinedVariable "@y" ∅)).
Proof.
  assert (evaluates test_call
            (Selector PyNone
               (PyList [Let "@y" (PyInt 0) false; PyStr "b"; PyStr "c"]))
            ∅
            ([(Let "@y" (PyInt 0) false, {["@y" := PyInt 0]})]
             ++ (PyStr "b", ∅) :: [(PyStr "c", ∅)], Done)) as Hfirst.
  { exists 5. split; [vm_compute; reflexivity|discriminate]. }
  assert (∀ (v0 : Expr TestFn) (env0 : gmap string (Expr TestFn)),
            (v0, env0) ∈ [(Let "@y" (PyInt 0) false : Expr TestFn,
                           ({["@y" := PyInt 0]}
                            : gmap string (Expr TestFn)))] →
            list_evaluates test_call
              [Selector (PyStr "@y") (PyList [PyStr "bar"; PyStr "baz"])] env0
              ([([PyStr "bar"], env0)], Done)) as Hbound.
  { intros v0 env0 Hin. apply list_elem_of_singleton in Hin.
    injection Hin as -> ->.
    exists 5. split; [vm_compute; reflexivity|discriminate]. }
  assert (list_evaluates test_call
            [Selector (PyStr "@y") (PyList [PyStr "bar"; PyStr "baz"])] ∅
            ([], Raised (UndefinedVariable "@y" ∅))) as Hunbound.
  { exists 5. split; [vm_compute; reflexivity|discriminate]. }
  split_and!; [exact Hfirst|exact Hbound|exact Hunbound|].
  destruct (exception_aborts_enumeration test_call) as (_ & Hrest & _).
  exact (Hrest _ _ ∅ [(Let "@y" (PyInt 0) false, {["@y" := PyInt 0]})]
           (PyStr "b") ∅ [(PyStr "c", ∅)] Done [] _
           (fun env0 => [([PyStr "bar"], env0)]) Hfirst Hbound Hunbound).
Defined.
